(** * WordGenerator: the preprocessing script and the character decoder

    A shallow embedding of [preprocess_data.py] and [modules.py], and the
    properties of them that the specification states.

    Conventions of the embedding:
    - a Python [str] is a [string]; a character is an [ascii] code point and
      a one-character Python string is a [string] of length one;
    - a Python [dict] is a [gmap]; the loops over [dict.items()] run over
      [map_to_list];
    - a Python call that may raise returns a [result];
    - [torch] modules are objects with parameters and buffers: calling one
      returns its output together with the module after the call. *)

From Stdlib Require Import Ascii.
From stdpp Require Import gmap strings list sorting.

Set Warnings "-clear-no-such-hyp".

(** ** Exceptions and fallible computations *)

Inductive exn : Type :=
| re_error      (* re.error: the pattern does not compile *)
| IndexError
| KeyError
| TypeError
| ValueError
| RuntimeError.

Inductive result (A : Type) : Type :=
| Ok (a : A)
| Err (e : exn).
Arguments Ok {A} a.
Arguments Err {A} e.

Global Instance result_ret : MRet result := λ A a, Ok a.
Global Instance result_bind : MBind result := λ A B f m,
  match m with
  | Ok a => f a
  | Err e => Err e
  end.

Global Instance result_fmap : FMap result := λ A B f m,
  match m with
  | Ok a => Ok (f a)
  | Err e => Err e
  end.

Definition is_Ok {A} (r : result A) : Prop :=
  match r with Ok _ => True | Err _ => False end.

(** [d[k]] on a dict and [l[i]] on a list *)
Definition getitem `{Countable K} {A} (d : gmap K A) (k : K) : result A :=
  match d !! k with
  | Some a => Ok a
  | None => Err KeyError
  end.

Definition index {A} (l : list A) (i : nat) : result A :=
  match l !! i with
  | Some a => Ok a
  | None => Err IndexError
  end.

(** [dict(pairs)]: the pairs are inserted in order, a later pair overwrites
    an earlier one with the same key. *)
Definition dict `{Countable K} {A} (pairs : list (K * A)) : gmap K A :=
  foldl (λ d kv, <[kv.1 := kv.2]> d) ∅ pairs.

(** ** The fragment of Python's [re] that [filter_words] builds

    [filter_words] matches each word against the pattern
    ['^[' + letters + ']+$'].  The character class is parsed as
    [sre_parse] does it: a leading [^] negates, a [']'] closes the class
    unless it is its first member, [x-y] is a range, and a [-] just before
    the closing bracket is a literal.  Backslash escapes, and patterns in
    which the class is closed before the final [']+$'] (so that the rest of
    [letters] is read as regular-expression syntax), are outside this
    fragment: they are handed to [re_other], which stands for the rest of
    the [re] module. *)

Class Re := { re_other : string → string → result bool }.

Inductive set_item : Type :=
| LITERAL (c : ascii)
| RANGE (lo hi : ascii).

Inductive set_parse : Type :=
| SetClosed (items : list set_item) (rest : list ascii)
| SetError
| SetEscape.

Definition ord (c : ascii) : N := N_of_ascii c.

(** The loop of [sre_parse] over the members of a class; [set] holds the
    members read so far. *)
Fixpoint parse_set (source : list ascii) (set : list set_item) : set_parse :=
  match source with
  | [] => SetError                                (* unterminated character set *)
  | this :: source1 =>
      if bool_decide (this = "]"%char) && negb (bool_decide (set = [])) then
        SetClosed set source1
      else if bool_decide (this = "\"%char) then SetEscape
      else
        match source1 with
        | next :: source2 =>
            if bool_decide (next = "-"%char) then
              match source2 with
              | [] => SetError                    (* unterminated character set *)
              | that :: source3 =>
                  if bool_decide (that = "]"%char) then
                    SetClosed (set ++ [LITERAL this; LITERAL "-"%char]) source3
                  else if bool_decide (that = "\"%char) then SetEscape
                  else if (ord that <? ord this)%N then SetError  (* bad character range *)
                  else parse_set source3 (set ++ [RANGE this that])
              end
            else parse_set source1 (set ++ [LITERAL this])
        | [] => parse_set source1 (set ++ [LITERAL this])
        end
  end.

Inductive pattern_parse : Type :=
| ClassPlus (negate : bool) (items : list set_item)   (* ^[...]+$ *)
| BadPattern
| OtherPattern.

Definition parse_pattern (pattern : list ascii) : pattern_parse :=
  match pattern with
  | c0 :: c1 :: source =>
      if bool_decide (c0 = "^"%char) && bool_decide (c1 = "["%char) then
        let '(negate, source) :=
          match source with
          | c :: source' =>
              if bool_decide (c = "^"%char) then (true, source') else (false, source)
          | [] => (false, source)
          end in
        match parse_set source [] with
        | SetClosed items rest =>
            if bool_decide (rest = ["+"%char; "$"%char]) then ClassPlus negate items
            else OtherPattern
        | SetError => BadPattern
        | SetEscape => OtherPattern
        end
      else OtherPattern
  | _ => OtherPattern
  end.

Definition item_matches (c : ascii) (item : set_item) : bool :=
  match item with
  | LITERAL x => bool_decide (c = x)
  | RANGE lo hi => (ord lo <=? ord c)%N && (ord c <=? ord hi)%N
  end.

Definition in_class (negate : bool) (items : list set_item) (c : ascii) : bool :=
  xorb negate (existsb (item_matches c) items).

(** [$] without MULTILINE: at the end of the string, or just before a
    newline that ends the string. *)
Definition at_end (rest : list ascii) : bool :=
  match rest with
  | [] => true
  | [c] => bool_decide (c = "010"%char)
  | _ => false
  end.

(** Greedy repetition followed by [$], with backtracking: take one more
    character of the class if the rest then matches, else try [$] here. *)
Fixpoint more_then_end (cls : ascii → bool) (w : list ascii) : bool :=
  match w with
  | [] => true
  | c :: rest => cls c && more_then_end cls rest || at_end w
  end.

Definition match_class_plus (cls : ascii → bool) (w : list ascii) : bool :=
  match w with
  | [] => false
  | c :: rest => cls c && more_then_end cls rest
  end.

(** [re.match(pattern, word)], as a truth value *)
Definition re_match {re : Re} (pattern word : string) : result bool :=
  match parse_pattern (String.list_ascii_of_string pattern) with
  | ClassPlus negate items =>
      Ok (match_class_plus (in_class negate items) (String.list_ascii_of_string word))
  | BadPattern => Err re_error
  | OtherPattern => re_other pattern word
  end.

(** ** preprocess_data.py *)

(** A word vector is a one-dimensional [torch.FloatTensor], the matrix of
    word vectors a list of rows.  The float type is a parameter: no float
    is ever computed with, [zero] fills [torch.zeros]. *)
Class Float := { F : Type; zero : F }.

Definition char_le (a b : ascii) : Prop := (ord a ≤ ord b)%N.
Definition char_lt (a b : ascii) : Prop := (ord a < ord b)%N.

Global Instance char_le_dec : RelDecision char_le.
Proof. intros a b. unfold char_le. apply _. Defined.

(** [sorted(...)] on characters and on words: Python orders strings by
    code point, lexicographically. *)
Definition sorted_chars : list ascii → list ascii := merge_sort char_le.
Definition sorted_words : list string → list string := merge_sort String.le.

(** [''.join(sorted(list(set(list(letters)))))] *)
Definition remove_duplicate_chars (letters : string) : string :=
  String.string_of_list_ascii
    (sorted_chars
       (elements (list_to_set (String.list_ascii_of_string letters) : gset ascii))).

(** The loop of [filter_words] over the items of the dictionary *)
Fixpoint filter_words_loop {re : Re} {V} (letters : string)
    (items : list (string * V)) (out : gmap string V) : result (gmap string V) :=
  match items with
  | [] => Ok out
  | (word, vec) :: items =>
      m ← re_match ("^[" +:+ letters +:+ "]+$") word;
      filter_words_loop letters items (if m : bool then <[word := vec]> out else out)
  end.

Definition filter_words {re : Re} {V} (word_vectors_dict : gmap string V)
    (letters : string) : result (gmap string V) :=
  filter_words_loop letters (map_to_list word_vectors_dict) ∅.

(** The characters that have a meaning inside a character class, and the
    letters strings that contain none of them *)
Definition metachars : list ascii := ["\"; "]"; "^"; "-"]%char.

Definition plain (letters : string) : Prop :=
  letters ≠ ""
  ∧ ∀ c, c ∈ String.list_ascii_of_string letters → c ∉ metachars.

(** A word passes the filter when the pattern matches it. *)
Definition passes {re : Re} (letters word : string) : Prop :=
  re_match ("^[" +:+ letters +:+ "]+$") word = Ok true.

(** A word made of one or more of the characters of [letters], and a word
    made of one or more characters that are not in [letters] *)
Definition composed_of (letters word : string) : Prop :=
  word ≠ ""
  ∧ ∀ c, c ∈ String.list_ascii_of_string word → c ∈ String.list_ascii_of_string letters.

Definition avoids (letters word : string) : Prop :=
  word ≠ ""
  ∧ ∀ c, c ∈ String.list_ascii_of_string word → c ∉ String.list_ascii_of_string letters.

Definition newline : string := String "010"%char "".

(** What [torch.save] pickles: the two tuples of [pickle_word_vecs] *)
Inductive pickled {float : Float} : Type :=
| WordsPkl (word2idx : gmap string nat) (idx2word : gmap nat string)
    (word_vecs : list (list F))
| CharsPkl (char2idx : gmap string nat) (idx2char : gmap nat string).

(** A computation that saves files and may raise: the files saved so far,
    in order, and the outcome.  The messages to the log are left out, and
    [torch.save] is taken to succeed. *)
Definition io {float : Float} (A : Type) : Type := list (string * pickled) * result A.

Definition io_bind {float : Float} {A B} (m : io A) (f : A → io B) : io B :=
  match m with
  | (saved, Ok a) => let '(saved', r) := f a in (saved ++ saved', r)
  | (saved, Err e) => (saved, Err e)
  end.
Definition lift {float : Float} {A} (r : result A) : io A := ([], r).
Definition torch_save {float : Float} (obj : pickled) (file : string) : io unit :=
  ([(file, obj)], Ok ()).

Notation "x ←io m ; k" := (io_bind m (λ x, k))
  (at level 20, m at level 100, k at level 200, only parsing, right associativity).
Notation "' x ←io m ; k" := (io_bind m (λ x, k))
  (at level 20, x pattern, m at level 100, k at level 200, only parsing,
   right associativity).

(** [word_vecs[i] = vec] on a row of a two-dimensional tensor: the sizes
    agree, or a one-element [vec] is broadcast over the row. *)
Definition set_row {float : Float} (word_vecs : list (list F)) (embedding_dim i : nat)
    (vec : list F) : result (list (list F)) :=
  if decide (length word_vecs ≤ i) then Err IndexError
  else if decide (length vec = embedding_dim) then Ok (<[i := vec]> word_vecs)
  else match vec with
       | [x] => Ok (<[i := replicate embedding_dim x]> word_vecs)
       | _ => Err RuntimeError
       end.

(** The state of the loop that fills the word tables *)
Record word_tables {float : Float} : Type := WordTables {
  word2idx : gmap string nat;
  idx2word : gmap nat string;
  word_vecs : list (list F);
  next_i : nat
}.

Fixpoint fill_word_tables {float : Float} (filtered_w2v : gmap string (list F))
    (embedding_dim : nat) (words : list string) (t : word_tables)
    : result word_tables :=
  match words with
  | [] => Ok t
  | word :: words =>
      let i := next_i t in
      vec ← getitem filtered_w2v word;
      word_vecs' ← set_row (word_vecs t) embedding_dim i vec;
      fill_word_tables filtered_w2v embedding_dim words
        (WordTables _ (<[word := i]> (word2idx t)) (<[i := word]> (idx2word t))
           word_vecs' (i + 1))
  end.

(** The characters of a string as one-character strings, as iterating over
    a [str] yields them. *)
Definition chars (s : string) : list string :=
  (λ c, String c "") <$> String.list_ascii_of_string s.

Definition pickle_word_vecs {re : Re} {float : Float} (output_path : string)
    (word_vectors_dict : gmap string (list F)) (letters : string) : io () :=
  let letters := remove_duplicate_chars letters in
  filtered_w2v ←io lift (filter_words word_vectors_dict letters);
  let words := sorted_words ((map_to_list filtered_w2v).*1) in
  let word_count := length words in
  first ←io lift (index words 0);
  first_vec ←io lift (getitem word_vectors_dict first);
  let embedding_dim := length first_vec in
  t ←io lift (fill_word_tables filtered_w2v embedding_dim words
                (WordTables _ ∅ ∅ (replicate word_count (replicate embedding_dim zero)) 0));
  let word_vec_file := output_path +:+ "_words.pkl" in
  _ ←io torch_save (WordsPkl (word2idx t) (idx2word t) (word_vecs t)) word_vec_file;
  let char2idx := dict (zip (chars letters) (seq 0 (String.length letters))) in
  let idx2char := dict (zip (seq 0 (String.length letters)) (chars letters)) in
  let char_file := output_path +:+ "_chars.pkl" in
  torch_save (CharsPkl char2idx idx2char) char_file.

(** The files of a run that returns *)
Definition saved_files {float : Float} (output_path letters : string) (t : word_tables)
    : list (string * pickled) :=
  let letters := remove_duplicate_chars letters in
  [(output_path +:+ "_words.pkl", WordsPkl (word2idx t) (idx2word t) (word_vecs t));
   (output_path +:+ "_chars.pkl",
    CharsPkl (dict (zip (chars letters) (seq 0 (String.length letters))))
             (dict (zip (seq 0 (String.length letters)) (chars letters))))].

(** *** The rest of the script: config, load_glove_model, main *)

(** [string.ascii_lowercase] and [string.ascii_uppercase] *)
Definition ascii_lowercase : string := "abcdefghijklmnopqrstuvwxyz".
Definition ascii_uppercase : string := "ABCDEFGHIJKLMNOPQRSTUVWXYZ".

(** The entry [letters] of the configuration, from the entries [chars],
    [lowercase] and [uppercase] *)
Definition config (chars : string) (lowercase uppercase : bool) : string :=
  let letters := chars in
  let letters := letters +:+ (if lowercase then ascii_lowercase else "") in
  let letters := letters +:+ (if uppercase then ascii_uppercase else "") in
  letters.

(** [c.isspace()] on the code points below 256 *)
Definition isspace (c : ascii) : bool :=
  bool_decide (ord c ∈ [9; 10; 11; 12; 13; 28; 29; 30; 31; 32; 133; 160]%N).

(** [line.split()]: the maximal runs of characters that are not whitespace;
    [cur] is the run being read. *)
Fixpoint split_loop (cur : list ascii) (s : list ascii) : list (list ascii) :=
  match s with
  | [] => if bool_decide (cur = []) then [] else [cur]
  | c :: s =>
      if isspace c then
        (if bool_decide (cur = []) then [] else [cur]) ++ split_loop [] s
      else split_loop (cur ++ [c]) s
  end.

Definition split (line : string) : list string :=
  String.string_of_list_ascii <$> split_loop [] (String.list_ascii_of_string line).

(** [float(val)], as [torch.FloatTensor] stores it; ValueError when [val]
    is not the text of a number. *)
Class FloatOfString {float : Float} := { float_of_string : string → result F }.

(** [[float(val) for val in vals]] *)
Fixpoint floats {float : Float} {parse : FloatOfString} (vals : list string)
    : result (list F) :=
  match vals with
  | [] => Ok []
  | val :: vals =>
      x ← float_of_string val;
      xs ← floats vals;
      Ok (x :: xs)
  end.

(** The loop of [load_glove_model] over the lines of the file *)
Fixpoint load_glove_loop {float : Float} {parse : FloatOfString}
    (file : list string) (model : gmap string (list F))
    : result (gmap string (list F)) :=
  match file with
  | [] => Ok model
  | line :: file =>
      let split_line := split line in
      word ← index split_line 0;
      embedding ← floats (drop 1 split_line);
      load_glove_loop file (<[word := embedding]> model)
  end.

(** One line of the file: its word and its vector *)
Definition entry {float : Float} {parse : FloatOfString}
    (line word : string) (embedding : list F) : Prop :=
  split line !! 0 = Some word ∧ floats (drop 1 (split line)) = Ok embedding.

(** [file] holds the lines of the opened glove file. *)
Definition load_glove_model {float : Float} {parse : FloatOfString}
    (file : list string) : result (gmap string (list F)) :=
  load_glove_loop file ∅.

Definition main {re : Re} {float : Float} {parse : FloatOfString}
    (glove_file : list string) (output_path letters : string) : io () :=
  word_vectors_dict ←io lift (load_glove_model glove_file);
  pickle_word_vecs output_path word_vectors_dict letters.

(** ** modules.py *)

(** A float tensor: its shape and its elements in row-major order. *)
Record Tensor {float : Float} : Type := mkTensor {
  shape : list nat;
  data : list F
}.

(** [t.unsqueeze(dim)]: a dimension of size one is inserted at [dim]; the
    elements are those of [t]. *)
Definition unsqueeze {float : Float} (dim : nat) (t : Tensor) : result Tensor :=
  if decide (dim ≤ length (shape t)) then
    Ok (mkTensor _ (take dim (shape t) ++ 1 :: drop dim (shape t)) (data t))
  else Err IndexError.

(** The hidden state of the recurrent core: one tensor, or the tuple
    [(hidden, cell)] of the LSTM. *)
Inductive Hidden {float : Float} : Type :=
| Single (h : Tensor)
| Dual (h c : Tensor).

(** What [modules.py] uses of [torch] and of [pytorch_utils.wrapped_rnn].
    A [Layer] is an [nn.Module] from one float tensor to one float tensor;
    calling it returns the output and the layer after the call (batch
    normalisation updates its running statistics in training mode); when a
    call raises, the exception is all that is left.  Parameter
    initialisation is taken as a function of the constructor's arguments.
    [PackedInput] and [PackedOutput] are the [PackedSequence]s of character
    indices and of scores; a one-dimensional [LongTensor] is a [list nat]. *)
Class Torch {float : Float} := {
  Layer : Type;
  call : Layer → Tensor → result (Tensor * Layer);
  (* nn.Linear(in_features, out_features), with its bias *)
  nn_Linear : nat → nat → Layer;
  Embedding : Type;
  nn_Embedding : nat → nat → Embedding;
  nn_ReLU : () → Layer;
  nn_Sigmoid : () → Layer;
  nn_Tanh : () → Layer;
  nn_BatchNorm1d : nat → Layer;
  PackedInput : Type;
  PackedOutput : Type;
  pack_sequence : list (list nat) → PackedInput;
  (* pout.data.argmax().item() *)
  data_argmax : PackedOutput → nat;
  PyObject : Type;
  WrappedRNN : Type;
  WrappedRNN_init : string → nat → nat → Embedding → Layer → nat →
                    gmap string PyObject → result WrappedRNN;
  WrappedRNN_call : WrappedRNN → Hidden → PackedInput →
                    result ((PackedOutput * Hidden) * WrappedRNN)
}.

Section modules.
Context {float : Float} {torch : Torch}.

(** [input_module] and [output_module] are registered on the decoder and
    handed to the recurrent core, which is the one that calls them: the
    record keeps the core, which holds both. *)
Record CharDecoderRNN : Type := mkCharDecoderRNN {
  rnn : WrappedRNN
}.

Definition CharDecoderRNN_init (mode : string)
    (hidden_size char_count char_embedding_size : nat)
    (kwargs : gmap string PyObject) : result CharDecoderRNN :=
  let input_module := nn_Embedding char_count char_embedding_size in
  let output_module := nn_Linear hidden_size char_count in
  rnn ← WrappedRNN_init mode char_embedding_size hidden_size
          input_module output_module 1 kwargs;
  Ok (mkCharDecoderRNN rnn).

Definition CharDecoderRNN_forward (self : CharDecoderRNN) (hidden : Hidden)
    (packed_input : PackedInput)
    : result ((PackedOutput * Hidden) * CharDecoderRNN) :=
  '(out, rnn') ← WrappedRNN_call (rnn self) hidden packed_input;
  Ok (out, mkCharDecoderRNN rnn').

Definition ACTS : gmap string (() → Layer) :=
  dict [("relu", nn_ReLU); ("sigmoid", nn_Sigmoid); ("tanh", nn_Tanh)].

(** Calling an [nn.Sequential]: each layer is called on the output of the
    one before it. *)
Fixpoint Sequential_call (layers : list Layer) (input : Tensor)
    : result (Tensor * list Layer) :=
  match layers with
  | [] => Ok (input, [])
  | module :: layers =>
      '(input, module') ← call module input;
      '(output, layers') ← Sequential_call layers input;
      Ok (output, module' :: layers')
  end.

Record CharDecoderHeadRNN : Type := mkCharDecoderHeadRNN {
  mode : string;
  decoder : CharDecoderRNN;
  embedding_to_hidden : list Layer
}.

Definition CharDecoderHeadRNN_init (mode : string)
    (hidden_size char_count char_embedding_size input_embedding_size : nat)
    (embedding_to_hidden_activation : string)
    (kwargs : gmap string PyObject) : result CharDecoderHeadRNN :=
  decoder ← CharDecoderRNN_init mode hidden_size char_count char_embedding_size ∅;
  let linear := nn_Linear input_embedding_size hidden_size in
  act ← getitem ACTS embedding_to_hidden_activation;
  let batch_norm := nn_BatchNorm1d hidden_size in
  Ok (mkCharDecoderHeadRNN mode decoder [linear; act (); batch_norm]).

(** With [use_head], [hidden] is the word embedding, a tensor: a tuple is
    refused by the first layer. *)
Definition forward (self : CharDecoderHeadRNN) (hidden : Hidden)
    (packed_input : PackedInput) (use_head : bool)
    : result ((PackedOutput * Hidden) * CharDecoderHeadRNN) :=
  '(hidden, head) ←
    (if use_head then
       match hidden with
       | Single embedding =>
           '(h, head) ← Sequential_call (embedding_to_hidden self) embedding;
           h ← unsqueeze 0 h;
           Ok (if bool_decide (mode self = "LSTM") then Dual h h else Single h, head)
       | Dual _ _ => Err TypeError
       end
     else Ok (hidden, embedding_to_hidden self));
  '(out, decoder') ← CharDecoderRNN_forward (decoder self) hidden packed_input;
  Ok (out, mkCharDecoderHeadRNN (mode self) decoder' head).

(** The states a module goes through: the constructor's result, then the
    module after each call of [forward] that returns. *)
Inductive constructed (mode0 : string)
    (hidden_size char_count char_embedding_size input_embedding_size : nat)
    (activation : string) : CharDecoderHeadRNN → Prop :=
| constructed_init kwargs self :
    CharDecoderHeadRNN_init mode0 hidden_size char_count char_embedding_size
      input_embedding_size activation kwargs = Ok self →
    constructed mode0 hidden_size char_count char_embedding_size
      input_embedding_size activation self
| constructed_forward self hidden packed_input use_head out self' :
    constructed mode0 hidden_size char_count char_embedding_size
      input_embedding_size activation self →
    forward self hidden packed_input use_head = Ok (out, self') →
    constructed mode0 hidden_size char_count char_embedding_size
      input_embedding_size activation self'.

(** A layer after any number of calls that returned *)
Inductive called (l0 : Layer) : Layer → Prop :=
| called_0 : called l0 l0
| called_S l input output l' :
    called l0 l → call l input = Ok (output, l') → called l0 l'.

(** *** The greedy generation of the demonstration (lines 129-149)

    [dataset.char2idx] and [dataset.idx2char] are the tables of the
    dataset, [hid] the word embedding.  The [while True] loop runs on fuel:
    [None] is a loop that has not ended when the fuel is spent. *)

Definition result_then {A B} (r : result A) (k : A → option (result B))
    : option (result B) :=
  match r with
  | Ok a => k a
  | Err e => Some (Err e)
  end.

Fixpoint generate_loop (idx2char : gmap nat string) (fuel : nat)
    (test_model : CharDecoderHeadRNN) (hid : Hidden) (inp : PackedInput)
    (out : string) : option (result string) :=
  match fuel with
  | 0 => None
  | S fuel =>
      result_then (forward test_model hid inp false) (λ '((pout, hid), test_model),
      let next_idx := data_argmax pout in
      let inp := pack_sequence [[next_idx]] in
      result_then (getitem idx2char next_idx) (λ c,
      if bool_decide (c = "END") then Some (Ok out)
      else generate_loop idx2char fuel test_model hid inp (out +:+ c)))
  end.

Definition generate (char2idx : gmap string nat) (idx2char : gmap nat string)
    (fuel : nat) (test_model : CharDecoderHeadRNN) (hid : Hidden)
    : option (result string) :=
  result_then (getitem char2idx "START") (λ start,
  let t := [start] in
  let inp := pack_sequence [t] in
  let out := "" in
  result_then (forward test_model hid inp true) (λ '((pout, hid), test_model),
  let next_idx := data_argmax pout in
  let inp := pack_sequence [[next_idx]] in
  result_then (getitem idx2char next_idx) (λ c,
  let out := out +:+ c in
  generate_loop idx2char fuel test_model hid inp out))).

End modules.

(** ** Stubs of the libraries, and the scenarios run on them

    The properties below hold for every [Re], [Float] and [Torch].  The
    scenarios run the code on stubs: integers for floats, layers that count
    their calls and return their input, and a recurrent core that counts
    its steps in the first element of the hidden state and emits the
    character its schedule gives for that step. *)

Definition no_other_patterns : Re := {| re_other := λ _ _, Err re_error |}.

Definition Z_float : Float := {| F := Z; zero := 0%Z |}.

Definition stub_steps (hidden : @Hidden Z_float) : Z :=
  match hidden with
  | Single h | Dual h _ => default 0%Z (head (data h))
  end.

Definition stub_tick (t : @Tensor Z_float) : @Tensor Z_float :=
  match data t with
  | [] => t
  | k :: rest => mkTensor Z_float (shape t) ((k + 1)%Z :: rest)
  end.

Definition stub_advance (hidden : @Hidden Z_float) : @Hidden Z_float :=
  match hidden with
  | Single h => Single (stub_tick h)
  | Dual h c => Dual (stub_tick h) c
  end.

Definition stub_torch : @Torch Z_float := {|
  Layer := nat;
  call := λ calls input, Ok (input, S calls);
  nn_Linear := λ _ _, 0;
  Embedding := ();
  nn_Embedding := λ _ _, ();
  nn_ReLU := λ _, 0;
  nn_Sigmoid := λ _, 0;
  nn_Tanh := λ _, 0;
  nn_BatchNorm1d := λ _, 0;
  PackedInput := list (list nat);
  PackedOutput := nat;
  pack_sequence := λ sequences, sequences;
  data_argmax := λ pout, pout;
  PyObject := Z;
  WrappedRNN := Z → nat;
  WrappedRNN_init := λ mode _ _ _ _ _ _,
    if bool_decide (mode = "GRU" ∨ mode = "LSTM") then Ok (λ _ : Z, 1)
    else Err ValueError;
  WrappedRNN_call := λ schedule hidden _,
    Ok ((schedule (stub_steps hidden), stub_advance hidden), schedule)
|}.

(** The vocabulary of the end-to-end scenario: START, END, a, b, c *)
Definition scenario_char2idx : gmap string nat :=
  dict [("START", 0); ("END", 1); ("a", 2); ("b", 3); ("c", 4)].
Definition scenario_idx2char : gmap nat string :=
  dict [(0, "START"); (1, "END"); (2, "a"); (3, "b"); (4, "c")].

(** A model with the given schedule of arg-max characters *)
Definition scenario_model (mode : string) (schedule : Z → nat)
    : @CharDecoderHeadRNN Z_float stub_torch :=
  mkCharDecoderHeadRNN mode (mkCharDecoderRNN (schedule : @WrappedRNN Z_float stub_torch))
    [0; 0; 0].

(** END has the highest score at every step *)
Definition always_END : Z → nat := λ _, 1.
(** END has the highest score at the first step only, then a, a, END *)
Definition END_first : Z → nat :=
  λ step, if bool_decide (step = 0 ∨ 3 ≤ step)%Z then 1 else 2.
(** a has the highest score until three characters are out, then END *)
Definition three_a : Z → nat :=
  λ step, if bool_decide (step < 3)%Z then 2 else 1.

(** The zero word embedding of size 4, for a batch of one *)
Definition zero_vector : @Tensor Z_float := mkTensor Z_float [1; 4] [0; 0; 0; 0]%Z.
Definition zero_embedding : @Hidden Z_float := Single zero_vector.

(** A small dictionary of word vectors *)
Definition small_dict : gmap string (list Z) :=
  dict [("ab", [1; 2]); ("ba", [3; 4]); ("abc", [5; 6]); ("b", [7; 8])]%Z.

(** Numbers written in decimal digits, read as integers, for [float] *)
Fixpoint stub_digits (acc : Z) (s : string) : result Z :=
  match s with
  | "" => Ok acc
  | String c s =>
      match Ascii.is_nat c with
      | Some k => stub_digits (10 * acc + Z.of_nat k)%Z s
      | None => Err ValueError
      end
  end.

Definition stub_float (val : string) : result Z :=
  if bool_decide (val = "") then Err ValueError else stub_digits 0 val.

Definition stub_float_of_string : @FloatOfString Z_float :=
  {| float_of_string := stub_float : string → result (@F Z_float) |}.

(** A glove file of four lines, the third for a word that was there before *)
Definition small_glove : list string :=
  ["ab 1 2" +:+ newline; "b-c 3 4" +:+ newline; "ab 5 6" +:+ newline; "Ba  7 8"].

(** A dictionary whose two vectors differ in length *)
Definition ragged_dict : gmap string (list Z) :=
  dict [("a", [1; 2]); ("b", [3; 4; 5])]%Z.

(** a has the highest score at every step *)
Definition always_a : Z → nat := λ _, 2.

(** The word "ab" followed by a newline *)
Definition ab_newline : string := "ab" +:+ String "010"%char "".

(** * Properties *)

(** ** Dictionaries and strings *)

Lemma dict_list_to_map `{Countable K} {A} (pairs : list (K * A)) :
  dict pairs = list_to_map (reverse pairs).
Proof.
  unfold dict. induction pairs as [|kv pairs IH] using rev_ind; [done|].
  by rewrite foldl_snoc, reverse_snoc, IH.
Qed.

Lemma dict_lookup `{Countable K} {A} (pairs : list (K * A)) k v :
  NoDup pairs.*1 → dict pairs !! k = Some v ↔ (k, v) ∈ pairs.
Proof.
  intros Hnd. rewrite dict_list_to_map, <-elem_of_list_to_map, elem_of_reverse; [done|].
  by rewrite fmap_reverse, reverse_Permutation.
Qed.

Lemma dict_size `{Countable K} {A} (pairs : list (K * A)) :
  NoDup pairs.*1 → size (dict pairs) = length pairs.
Proof.
  intros Hnd. rewrite dict_list_to_map, map_size_list_to_map, length_reverse; [done|].
  by rewrite fmap_reverse, reverse_Permutation.
Qed.

Lemma list_ascii_of_string_app (s1 s2 : string) :
  String.list_ascii_of_string (s1 +:+ s2)
  = String.list_ascii_of_string s1 ++ String.list_ascii_of_string s2.
Proof.
  induction s1 as [|c s1 IH]; [done|].
  change (String c s1 +:+ s2) with (String c (s1 +:+ s2)). cbn. by rewrite IH.
Qed.

Lemma length_list_ascii_of_string (s : string) :
  length (String.list_ascii_of_string s) = String.length s.
Proof. induction s as [|c s IH]; [done|]. cbn. by rewrite IH. Qed.

Lemma ord_inj a b : ord a = ord b → a = b.
Proof.
  unfold ord. intros E.
  by rewrite <-(ascii_N_embedding a), <-(ascii_N_embedding b), E.
Qed.

Global Instance char_le_trans : Transitive char_le.
Proof. unfold char_le. intros a b c. lia. Qed.
Global Instance char_le_total : Total char_le.
Proof. unfold char_le. intros a b. lia. Qed.

Global Instance one_char_inj : Inj (=) (=) (λ c : ascii, String c "").
Proof. by intros a b [=]. Qed.

(** ** remove_duplicate_chars *)

Lemma strictly_sorted (l : list ascii) :
  StronglySorted char_le l → NoDup l → StronglySorted char_lt l.
Proof.
  induction 1 as [|a l Hs IH Hall]; intros Hnd; [constructor|].
  apply NoDup_cons in Hnd as [Ha Hnd]. constructor; [by apply IH|].
  rewrite Forall_forall in Hall |- *. intros x Hx.
  specialize (Hall x Hx). unfold char_le, char_lt in *.
  assert (ord a ≠ ord x) by (intros ->%ord_inj; done). lia.
Qed.

Lemma remove_duplicate_chars_list (letters : string) :
  String.list_ascii_of_string (remove_duplicate_chars letters)
  = sorted_chars
      (elements (list_to_set (String.list_ascii_of_string letters) : gset ascii)).
Proof. apply String.list_ascii_of_string_of_list_ascii. Qed.

Lemma remove_duplicate_chars_elem (letters : string) c :
  c ∈ String.list_ascii_of_string (remove_duplicate_chars letters)
  ↔ c ∈ String.list_ascii_of_string letters.
Proof.
  rewrite remove_duplicate_chars_list. unfold sorted_chars.
  rewrite merge_sort_Permutation, elem_of_elements.
  apply elem_of_list_to_set.
Qed.

Lemma remove_duplicate_chars_NoDup (letters : string) :
  NoDup (String.list_ascii_of_string (remove_duplicate_chars letters)).
Proof.
  rewrite remove_duplicate_chars_list. unfold sorted_chars.
  rewrite merge_sort_Permutation. apply NoDup_elements.
Qed.

Lemma remove_duplicate_chars_sorted (letters : string) :
  StronglySorted char_lt (String.list_ascii_of_string (remove_duplicate_chars letters)).
Proof.
  apply strictly_sorted; [|apply remove_duplicate_chars_NoDup].
  rewrite remove_duplicate_chars_list. apply StronglySorted_merge_sort; apply _.
Qed.

(** ** The character tables *)

Section char_tables.
Variable letters : string.
Let cs := String.list_ascii_of_string letters.
Let n := String.length letters.
Hypothesis distinct : NoDup cs.

Lemma char2idx_lookup s i :
  dict (zip (chars letters) (seq 0 n)) !! s = Some i
  ↔ ∃ c, cs !! i = Some c ∧ s = String c "".
Proof.
  assert (length (chars letters) = n) as Hlen.
  { unfold chars, n. by rewrite length_fmap, length_list_ascii_of_string. }
  rewrite dict_lookup.
  2:{ rewrite fst_zip by (rewrite length_seq; lia).
      unfold chars. by apply (NoDup_fmap_2 _). }
  rewrite elem_of_lookup_zip_with. unfold chars. fold cs. split.
  - intros (j & s' & i' & [= -> ->] & Hs & Hi).
    apply lookup_seq in Hi as [-> _].
    rewrite list_lookup_fmap in Hs.
    destruct (cs !! j) as [c|] eqn:Hc; simplify_eq/=. eauto.
  - intros (c & Hc & ->). exists i, (String c ""), i.
    split_and!; [done| |].
    + by rewrite list_lookup_fmap, Hc.
    + apply lookup_seq. split; [done|].
      apply lookup_lt_Some in Hc. unfold cs, n in *.
      by rewrite length_list_ascii_of_string in Hc.
Qed.

Lemma idx2char_lookup s i :
  dict (zip (seq 0 n) (chars letters)) !! i = Some s
  ↔ ∃ c, cs !! i = Some c ∧ s = String c "".
Proof.
  assert (length (chars letters) = n) as Hlen.
  { unfold chars, n. by rewrite length_fmap, length_list_ascii_of_string. }
  rewrite dict_lookup.
  2:{ rewrite fst_zip by (rewrite length_seq; lia). apply NoDup_seq. }
  rewrite elem_of_lookup_zip_with. unfold chars. fold cs. split.
  - intros (j & i' & s' & [= -> ->] & Hi & Hs).
    apply lookup_seq in Hi as [-> _].
    rewrite list_lookup_fmap in Hs.
    destruct (cs !! j) as [c|] eqn:Hc; simplify_eq/=. eauto.
  - intros (c & Hc & ->). exists i, i, (String c "").
    split_and!; [done| |].
    + apply lookup_seq. split; [done|].
      apply lookup_lt_Some in Hc. unfold cs, n in *.
      by rewrite length_list_ascii_of_string in Hc.
    + by rewrite list_lookup_fmap, Hc.
Qed.

Lemma char2idx_size : size (dict (zip (chars letters) (seq 0 n))) = length cs.
Proof.
  assert (length (chars letters) = n) as Hlen.
  { unfold chars, n. by rewrite length_fmap, length_list_ascii_of_string. }
  rewrite dict_size.
  - rewrite length_zip_with, length_seq, Hlen. unfold cs, n.
    rewrite length_list_ascii_of_string. lia.
  - rewrite fst_zip by (rewrite length_seq; lia).
    unfold chars. by apply (NoDup_fmap_2 _).
Qed.

End char_tables.

(** ** filter_words *)

Section filter_words_facts.
Context {re : Re} {V : Type}.
Implicit Types (items : list (string * V)) (out : gmap string V).

Lemma filter_words_loop_lookup letters items out0 out :
  NoDup items.*1 →
  filter_words_loop letters items out0 = Ok out →
  ∀ w v, out !! w = Some v
         ↔ ((w, v) ∈ items ∧ passes letters w)
           ∨ (out0 !! w = Some v ∧ ¬ (w ∈ items.*1 ∧ passes letters w)).
Proof.
  unfold passes. revert out0.
  induction items as [|[w0 v0] items IH]; intros out0 Hnd Hrun w v.
  - simplify_eq/=. rewrite elem_of_nil. set_solver.
  - cbn in Hrun. apply NoDup_cons in Hnd as [Hw0 Hnd].
    destruct (re_match _ w0) as [m|e] eqn:Hm; [|done]. cbn in Hrun.
    rewrite (IH _ Hnd Hrun w v), elem_of_cons, fmap_cons, elem_of_cons. cbn.
    assert ((w, v) ∈ items → w ∈ items.*1) as Hkey.
    { intros Hin. apply list_elem_of_fmap. by exists (w, v). }
    destruct (decide (w = w0)) as [->|Hne].
    + destruct m.
      * rewrite lookup_insert_eq. intuition congruence.
      * rewrite Hm. intuition congruence.
    + destruct m; [rewrite lookup_insert_ne by done|]; intuition congruence.
Qed.

Lemma filter_words_lookup (d : gmap string V) letters out :
  filter_words d letters = Ok out →
  ∀ w v, out !! w = Some v ↔ d !! w = Some v ∧ passes letters w.
Proof.
  intros Hrun w v.
  rewrite (filter_words_loop_lookup _ _ _ _ (NoDup_fst_map_to_list d) Hrun w v).
  rewrite elem_of_map_to_list, lookup_empty. intuition congruence.
Qed.

Lemma filter_words_loop_Err letters items out0 e :
  filter_words_loop letters items out0 = Err e →
  ∃ w, w ∈ items.*1 ∧ re_match ("^[" +:+ letters +:+ "]+$") w = Err e.
Proof.
  revert out0. induction items as [|[w0 v0] items IH]; intros out0 Hrun; [done|].
  cbn in Hrun. destruct (re_match _ w0) as [m|e'] eqn:Hm; cbn in Hrun.
  - destruct (IH _ Hrun) as (w & Hw & He). exists w. set_solver.
  - simplify_eq. exists w0. set_solver.
Qed.

Lemma filter_words_loop_Ok letters items out0 :
  (∀ w, w ∈ items.*1 → is_Ok (re_match ("^[" +:+ letters +:+ "]+$") w)) →
  is_Ok (filter_words_loop letters items out0).
Proof.
  intros Hall.
  destruct (filter_words_loop letters items out0) as [out|e] eqn:Hrun; [done|].
  apply filter_words_loop_Err in Hrun as (w & Hw & He).
  specialize (Hall w Hw). by rewrite He in Hall.
Qed.

Lemma filter_words_Ok (d : gmap string V) letters :
  (∀ w, is_Some (d !! w) → is_Ok (re_match ("^[" +:+ letters +:+ "]+$") w)) →
  is_Ok (filter_words d letters).
Proof.
  intros Hall. apply filter_words_loop_Ok. intros w Hw. apply Hall.
  apply list_elem_of_fmap in Hw as ([w' v] & -> & Hin).
  apply elem_of_map_to_list in Hin. by exists v.
Qed.

Lemma filter_words_Err (d : gmap string V) letters e :
  filter_words d letters = Err e →
  ∃ w, is_Some (d !! w) ∧ re_match ("^[" +:+ letters +:+ "]+$") w = Err e.
Proof.
  intros (w & Hw & He)%filter_words_loop_Err. exists w. split; [|done].
  apply list_elem_of_fmap in Hw as ([w' v] & -> & Hin).
  apply elem_of_map_to_list in Hin. by exists v.
Qed.

End filter_words_facts.

(** ** pickle_word_vecs *)

Section pickle_word_vecs_facts.
Context {re : Re} {float : Float}.

Lemma pickle_word_vecs_Err output_path d letters e :
  filter_words d (remove_duplicate_chars letters) = Err e →
  pickle_word_vecs output_path d letters = ([], Err e).
Proof. intros Hf. unfold pickle_word_vecs. by rewrite Hf. Qed.

Lemma pickle_word_vecs_empty output_path d letters :
  filter_words d (remove_duplicate_chars letters) = Ok ∅ →
  pickle_word_vecs output_path d letters = ([], Err IndexError).
Proof.
  intros Hf. unfold pickle_word_vecs. rewrite Hf. cbn.
  by rewrite map_to_list_empty.
Qed.

Lemma pickle_word_vecs_cases output_path d letters :
  (∃ e, pickle_word_vecs output_path d letters = ([], Err e))
  ∨ (∃ filtered_w2v t,
        filter_words d (remove_duplicate_chars letters) = Ok filtered_w2v
        ∧ filtered_w2v ≠ ∅
        ∧ pickle_word_vecs output_path d letters
          = (saved_files output_path letters t, Ok ())).
Proof.
  unfold pickle_word_vecs.
  destruct (filter_words d _) as [f|e] eqn:Hf; [|left; by exists e].
  cbn.
  destruct (index (sorted_words (map_to_list f).*1) 0) as [first|e] eqn:Hfirst;
    [|left; by exists e].
  cbn.
  destruct (getitem d first) as [vec|e]; [|left; by exists e].
  cbn.
  destruct (fill_word_tables _ _ _ _) as [t|e]; [|left; by exists e].
  right. exists f, t. split_and!; [done| |done].
  intros ->. by rewrite map_to_list_empty in Hfirst.
Qed.

End pickle_word_vecs_facts.

(** ** The pattern of filter_words on letters without metacharacters *)

Lemma parse_set_plain (cs : list ascii) (set : list set_item) :
  Forall (λ c, c ∉ metachars) cs →
  cs ≠ [] ∨ set ≠ [] →
  parse_set (cs ++ ["]"; "+"; "$"]%char) set
  = SetClosed (set ++ (LITERAL <$> cs)) ["+"; "$"]%char.
Proof.
  revert set. induction cs as [|c cs IH]; intros set Hall Hne.
  - destruct Hne as [?|Hset]; [done|]. cbn.
    rewrite (bool_decide_eq_false_2 (set = [])) by done.
    by rewrite app_nil_r.
  - apply Forall_cons in Hall as [Hc Hall].
    assert (c ≠ "]"%char ∧ c ≠ "\"%char) as [Hc1 Hc2].
    { unfold metachars in Hc. set_solver. }
    cbn [app parse_set].
    rewrite (bool_decide_eq_false_2 (c = "]"%char)) by done.
    rewrite (bool_decide_eq_false_2 (c = "\"%char)) by done.
    cbn [andb].
    assert (parse_set (cs ++ ["]"; "+"; "$"]%char) (set ++ [LITERAL c])
            = SetClosed (set ++ (LITERAL <$> c :: cs)) ["+"; "$"]%char) as Hrest.
    { rewrite IH; [|done|right; by destruct set].
      by rewrite <-(assoc_L (++)). }
    destruct cs as [|c' cs]; [done|].
    apply Forall_cons in Hall as [Hc' Hall].
    cbn [app] in *.
    rewrite (bool_decide_eq_false_2 (c' = "-"%char)); [done|].
    unfold metachars in Hc'. set_solver.
Qed.

Lemma in_class_literals (cs : list ascii) (c : ascii) :
  in_class false (LITERAL <$> cs) c = bool_decide (c ∈ cs).
Proof.
  unfold in_class. cbn. induction cs as [|x cs IH]; [done|].
  cbn. rewrite IH. repeat case_bool_decide; set_solver.
Qed.

Lemma more_then_end_true (cls : ascii → bool) (w : list ascii) :
  more_then_end cls w = true
  ↔ ∃ p, Forall (λ c, cls c = true) p ∧ (w = p ∨ w = p ++ ["010"%char]).
Proof.
  induction w as [|c w IH]; cbn [more_then_end].
  - split; [|done]. intros _. exists []. by split; [constructor|left].
  - rewrite orb_true_iff, andb_true_iff, IH. split.
    + intros [[Hc (p & Hp & Hw)]|Hend].
      * exists (c :: p). split; [by constructor|]. destruct Hw as [->| ->]; auto.
      * exists []. split; [constructor|]. right.
        destruct w; [|done]. cbn in Hend. by apply bool_decide_eq_true in Hend as ->.
    + intros ([|c' p] & Hp & Hw).
      * right. destruct Hw as [?|[= -> ->]]; [done|]. done.
      * apply Forall_cons in Hp as [Hc' Hp]. left.
        destruct Hw as [[= -> ->]|[= -> ->]]; split; eauto.
Qed.

Lemma match_class_plus_true (cls : ascii → bool) (w : list ascii) :
  match_class_plus cls w = true
  ↔ ∃ p, p ≠ [] ∧ Forall (λ c, cls c = true) p ∧ (w = p ∨ w = p ++ ["010"%char]).
Proof.
  destruct w as [|c w]; cbn [match_class_plus].
  - split; [done|]. intros ([|??] & ? & ? & [?|?]); done.
  - rewrite andb_true_iff, more_then_end_true. split.
    + intros [Hc (p & Hp & Hw)]. exists (c :: p).
      split_and!; [done|by constructor|destruct Hw as [->| ->]; auto].
    + intros ([|c' p] & Hne & Hp & Hw); [done|].
      apply Forall_cons in Hp as [Hc' Hp].
      destruct Hw as [[= -> ->]|[= -> ->]]; split; eauto.
Qed.

Lemma match_class_plus_ext (cls cls' : ascii → bool) (w : list ascii) :
  (∀ c, cls c = cls' c) → match_class_plus cls w = match_class_plus cls' w.
Proof.
  intros Hext. destruct w as [|c w]; [done|]. cbn. rewrite Hext. f_equal.
  induction w as [|c' w IH]; [done|]. cbn [more_then_end]. by rewrite IH, Hext.
Qed.

Lemma re_match_plain {re : Re} (letters word : string) :
  plain letters →
  re_match ("^[" +:+ letters +:+ "]+$") word
  = Ok (match_class_plus
          (λ c, bool_decide (c ∈ String.list_ascii_of_string letters))
          (String.list_ascii_of_string word)).
Proof.
  intros [Hne Hplain]. unfold re_match.
  rewrite !list_ascii_of_string_app. cbn.
  apply Forall_forall in Hplain.
  destruct (String.list_ascii_of_string letters) as [|c cs] eqn:Ecs.
  { destruct letters; done. }
  assert (c ≠ "^"%char) as Hc.
  { apply Forall_cons in Hplain as [Hc _]. unfold metachars in Hc. set_solver. }
  cbn [app]. rewrite (bool_decide_eq_false_2 (c = "^"%char)) by done.
  change (c :: cs ++ ["]"; "+"; "$"]%char) with ((c :: cs) ++ ["]"; "+"; "$"]%char).
  rewrite parse_set_plain by auto. cbn [app bool_decide].
  rewrite bool_decide_eq_true_2 by done.
  f_equal. apply match_class_plus_ext, in_class_literals.
Qed.

(** On letters without metacharacters, [filter_words] returns, and keeps
    the words made of one or more of the letters, allowing for one newline
    at the end of the word, which [$] lets through. *)
Lemma filter_words_plain {re : Re} {V} (d : gmap string V) (letters : string) :
  plain letters →
  ∃ out, filter_words d letters = Ok out
    ∧ ∀ w v, out !! w = Some v
        ↔ d !! w = Some v
          ∧ ∃ p, p ≠ []
              ∧ Forall (λ c, c ∈ String.list_ascii_of_string letters) p
              ∧ (String.list_ascii_of_string w = p
                 ∨ String.list_ascii_of_string w = p ++ ["010"%char]).
Proof.
  intros Hplain.
  destruct (filter_words d letters) as [out|e] eqn:Hrun.
  - exists out. split; [done|]. intros w v.
    rewrite (filter_words_lookup _ _ _ Hrun). unfold passes.
    rewrite re_match_plain by done.
    assert (∀ b : bool, Ok b = Ok true ↔ b = true) as ->
      by (intros b; split; congruence).
    rewrite match_class_plus_true.
    assert (∀ p, Forall (λ c, bool_decide
                   (c ∈ String.list_ascii_of_string letters) = true) p
                 ↔ Forall (λ c, c ∈ String.list_ascii_of_string letters) p) as Hall.
    { intros p. apply Forall_iff. intros c. apply bool_decide_eq_true. }
    by setoid_rewrite Hall.
  - apply filter_words_Err in Hrun as (w & _ & He).
    by rewrite re_match_plain in He.
Qed.

(** ** The files that pickle_word_vecs saves *)

Lemma pickle_word_vecs_chars {re : Re} {float : Float}
    output_path d letters file char2idx idx2char :
  (file, CharsPkl char2idx idx2char) ∈ (pickle_word_vecs output_path d letters).1 →
  let letters' := remove_duplicate_chars letters in
  file = output_path +:+ "_chars.pkl"
  ∧ char2idx = dict (zip (chars letters') (seq 0 (String.length letters')))
  ∧ idx2char = dict (zip (seq 0 (String.length letters')) (chars letters')).
Proof.
  intros Hin letters'.
  destruct (pickle_word_vecs_cases output_path d letters)
    as [[e Hrun]|(f & t & _ & _ & Hrun)]; rewrite Hrun in Hin; cbn in Hin.
  - by apply elem_of_nil in Hin.
  - unfold saved_files in Hin.
    apply elem_of_cons in Hin as [[=]|Hin].
    apply list_elem_of_singleton in Hin as [= -> -> ->]. done.
Qed.

Lemma pickle_word_vecs_char_tables {re : Re} {float : Float}
    output_path d letters file char2idx idx2char :
  (file, CharsPkl char2idx idx2char) ∈ (pickle_word_vecs output_path d letters).1 →
  let cs := String.list_ascii_of_string (remove_duplicate_chars letters) in
  size char2idx = length cs
  ∧ (∀ s i, char2idx !! s = Some i ↔ ∃ c, cs !! i = Some c ∧ s = String c "")
  ∧ (∀ s i, idx2char !! i = Some s ↔ ∃ c, cs !! i = Some c ∧ s = String c "").
Proof.
  intros (_ & -> & ->)%pickle_word_vecs_chars cs.
  pose proof (remove_duplicate_chars_NoDup letters) as Hnd.
  split_and!.
  - apply (char2idx_size (remove_duplicate_chars letters) Hnd).
  - apply (char2idx_lookup (remove_duplicate_chars letters) Hnd).
  - apply (idx2char_lookup (remove_duplicate_chars letters)).
Qed.

(** C4. The character table that [pickle_word_vecs] saves covers exactly
    the distinct characters of [letters], in sorted order, on contiguous
    indices: [char2idx] maps the i-th character of the sorted, duplicate-free
    letters to [i], it is a bijection from those characters onto
    [0, char_count), and [idx2char] is its inverse. *)
Theorem char_table_bijection {re : Re} {float : Float}
    (output_path : string) (d : gmap string (list F)) (letters file : string)
    (char2idx : gmap string nat) (idx2char : gmap nat string) :
  (file, CharsPkl char2idx idx2char) ∈ (pickle_word_vecs output_path d letters).1 →
  let cs := String.list_ascii_of_string (remove_duplicate_chars letters) in
  let char_count := size char2idx in
  (∀ c, c ∈ cs ↔ c ∈ String.list_ascii_of_string letters)
  ∧ StronglySorted char_lt cs
  ∧ char_count = length cs
  ∧ (∀ s i, char2idx !! s = Some i ↔ ∃ c, cs !! i = Some c ∧ s = String c "")
  ∧ (∀ s i, idx2char !! i = Some s ↔ char2idx !! s = Some i)
  ∧ (∀ i, i < char_count ↔ ∃ s, char2idx !! s = Some i)
  ∧ (∀ s s' i, char2idx !! s = Some i → char2idx !! s' = Some i → s = s').
Proof.
  intros (Hcount & Hc2i & Hi2c)%pickle_word_vecs_char_tables cs char_count.
  split_and!.
  - apply remove_duplicate_chars_elem.
  - apply remove_duplicate_chars_sorted.
  - done.
  - done.
  - intros s i. by rewrite Hc2i, Hi2c.
  - intros i. unfold char_count. rewrite Hcount. split.
    + intros (c & Hc)%lookup_lt_is_Some. exists (String c ""). apply Hc2i. eauto.
    + intros (s & (c & Hc & _)%Hc2i). by eapply lookup_lt_Some.
  - intros s s' i (c & Hc & ->)%Hc2i (c' & Hc' & ->)%Hc2i. congruence.
Qed.

Lemma char_table_bijection_witness :
  let char2idx : gmap string nat := dict [("a", 0); ("b", 1); ("c", 2)] in
  let idx2char : gmap nat string := dict [(0, "a"); (1, "b"); (2, "c")] in
  ("out_chars.pkl", CharsPkl char2idx idx2char)
    ∈ (pickle_word_vecs (re := no_other_patterns) (float := Z_float)
         "out" small_dict "cabba").1
  ∧ (∀ s i, idx2char !! i = Some s ↔ char2idx !! s = Some i).
Proof.
  intros char2idx idx2char.
  assert (("out_chars.pkl", CharsPkl char2idx idx2char)
            ∈ (pickle_word_vecs (re := no_other_patterns) (float := Z_float)
                 "out" small_dict "cabba").1) as Hrun.
  { vm_compute. right. left. }
  split; [exact Hrun|].
  apply (char_table_bijection (re := no_other_patterns) (float := Z_float)
           "out" small_dict "cabba" "out_chars.pkl" char2idx idx2char Hrun).
Defined.

(** C3, as the code has it.  The character tables that [pickle_word_vecs]
    saves hold the single characters of [letters] and nothing else: every
    key of [char2idx] and every value of [idx2char] is a one-character
    string, so START and END are entries of neither table. *)
Theorem char_tables_hold_single_characters {re : Re} {float : Float}
    (output_path : string) (d : gmap string (list F)) (letters file : string)
    (char2idx : gmap string nat) (idx2char : gmap nat string) :
  (file, CharsPkl char2idx idx2char) ∈ (pickle_word_vecs output_path d letters).1 →
  (∀ s i, char2idx !! s = Some i ∨ idx2char !! i = Some s →
     ∃ c, s = String c "" ∧ c ∈ String.list_ascii_of_string letters)
  ∧ char2idx !! "START" = None
  ∧ char2idx !! "END" = None
  ∧ (∀ i, idx2char !! i ≠ Some "START" ∧ idx2char !! i ≠ Some "END").
Proof.
  intros Hin.
  destruct (pickle_word_vecs_char_tables _ _ _ _ _ _ Hin) as (_ & Hc2i & Hi2c).
  assert (∀ s i, char2idx !! s = Some i ∨ idx2char !! i = Some s →
            ∃ c, s = String c "" ∧ c ∈ String.list_ascii_of_string letters) as Hone.
  { intros s i Hsi.
    assert (∃ c, String.list_ascii_of_string (remove_duplicate_chars letters) !! i
                 = Some c ∧ s = String c "") as (c & Hc & ->)
      by (destruct Hsi as [?%Hc2i|?%Hi2c]; done).
    exists c. split; [done|].
    apply remove_duplicate_chars_elem. by eapply list_elem_of_lookup_2. }
  split_and!; [done| | |].
  - destruct (char2idx !! "START") as [i|] eqn:E; [|done].
    by destruct (Hone "START" i (or_introl E)) as (c & [=] & _).
  - destruct (char2idx !! "END") as [i|] eqn:E; [|done].
    by destruct (Hone "END" i (or_introl E)) as (c & [=] & _).
  - intros i. split; intros E;
      by destruct (Hone _ i (or_intror E)) as (c & [=] & _).
Qed.

Lemma char_tables_hold_single_characters_witness :
  let char2idx : gmap string nat := dict [("a", 0); ("b", 1)] in
  let idx2char : gmap nat string := dict [(0, "a"); (1, "b")] in
  ("out_chars.pkl", CharsPkl char2idx idx2char)
    ∈ (pickle_word_vecs (re := no_other_patterns) (float := Z_float)
         "out" small_dict "ab").1
  ∧ char2idx !! "START" = None
  ∧ char2idx !! "END" = None
  ∧ (∀ i, idx2char !! i ≠ Some "START" ∧ idx2char !! i ≠ Some "END").
Proof.
  intros char2idx idx2char.
  assert (("out_chars.pkl", CharsPkl char2idx idx2char)
            ∈ (pickle_word_vecs (re := no_other_patterns) (float := Z_float)
                 "out" small_dict "ab").1) as Hrun.
  { vm_compute. right. left. }
  split; [exact Hrun|].
  apply (char_tables_hold_single_characters (re := no_other_patterns)
           (float := Z_float) "out" small_dict "ab" "out_chars.pkl"
           char2idx idx2char Hrun).
Defined.

(** C3, as the specification has it, fails: the run on [small_dict] with
    the letters "ab" saves a character table whose only entries are a and
    b; START and END are looked up in vain. *)
Lemma char_tables_without_sentinels :
  let char2idx : gmap string nat := dict [("a", 0); ("b", 1)] in
  let idx2char : gmap nat string := dict [(0, "a"); (1, "b")] in
  (pickle_word_vecs (re := no_other_patterns) (float := Z_float)
     "out" small_dict "ab").1 !! 1
  = Some ("out_chars.pkl", CharsPkl char2idx idx2char)
  ∧ char2idx !! "START" = None
  ∧ char2idx !! "END" = None
  ∧ size idx2char = 2
  ∧ idx2char !! 0 = Some "a"
  ∧ idx2char !! 1 = Some "b".
Proof. vm_compute. done. Qed.

(** C10. When no word of the dictionary passes the letter filter, so that
    the filtered dictionary is empty, [pickle_word_vecs] raises IndexError
    at [words[0]] and has saved no file; a run that saves a file had a word
    that passed the filter. *)
Theorem pickle_word_vecs_needs_a_word {re : Re} {float : Float}
    (output_path : string) (d : gmap string (list F)) (letters : string) :
  (filter_words d (remove_duplicate_chars letters) = Ok ∅ →
   pickle_word_vecs output_path d letters = ([], Err IndexError))
  ∧ ((pickle_word_vecs output_path d letters).1 ≠ [] →
     ∃ w v, d !! w = Some v ∧ passes (remove_duplicate_chars letters) w).
Proof.
  split; [apply pickle_word_vecs_empty|].
  intros Hsaved.
  destruct (pickle_word_vecs_cases output_path d letters)
    as [[e Hrun]|(f & t & Hf & Hne & _)]; [by rewrite Hrun in Hsaved|].
  apply map_choose in Hne as (w & v & Hw).
  exists w, v. by apply (filter_words_lookup _ _ _ Hf).
Qed.

Lemma pickle_word_vecs_needs_a_word_witness :
  filter_words (re := no_other_patterns) small_dict (remove_duplicate_chars "yxx") = Ok ∅
  ∧ pickle_word_vecs (re := no_other_patterns) (float := Z_float) "out" small_dict "yxx"
    = ([], Err IndexError).
Proof.
  assert (filter_words (re := no_other_patterns) small_dict
            (remove_duplicate_chars "yxx") = Ok ∅) as Hnone
    by (vm_compute; reflexivity).
  split; [exact Hnone|].
  apply (proj1 (pickle_word_vecs_needs_a_word (re := no_other_patterns)
                  (float := Z_float) "out" small_dict "yxx") Hnone).
Defined.

(** C2, at the inputs where the code departs from it.  With the letters
    "a-c" the word "b" is kept, although b is not one of the letters: the
    letters are pasted into the pattern and read as the range from a to c.
    With the letters "ab" the word "ab" followed by a newline is kept,
    although the newline is not one of the letters: [$] matches before a
    final newline.  Both patterns are in the fragment, whatever the rest of
    [re] does. *)
Theorem filter_words_keeps_other_characters (re : Re) :
  filter_words ({["b" := 7]} : gmap string nat) "a-c" = Ok {["b" := 7]}
  ∧ ("b"%char ∉ String.list_ascii_of_string "a-c")
  ∧ filter_words ({[ab_newline := 7]} : gmap string nat) "ab"
    = Ok {[ab_newline := 7]}
  ∧ ("010"%char ∈ String.list_ascii_of_string ab_newline)
  ∧ ("010"%char ∉ String.list_ascii_of_string "ab").
Proof.
  split_and!.
  - vm_compute. reflexivity.
  - cbn. set_solver.
  - vm_compute. reflexivity.
  - cbn. set_solver.
  - cbn. set_solver.
Qed.

(** ** CharDecoderHeadRNN *)

Section modules_facts.
Context {float : Float} {torch : Torch}.
Implicit Types (self : CharDecoderHeadRNN) (hidden : Hidden) (x : Tensor).

Lemma ACTS_lookup (name : string) (ctor : () → Layer) :
  ACTS !! name = Some ctor
  ↔ (name, ctor) ∈ [("relu", nn_ReLU); ("sigmoid", nn_Sigmoid); ("tanh", nn_Tanh)].
Proof.
  unfold ACTS. rewrite dict_lookup; [done|]. cbn.
  repeat (constructor; [set_solver|]). constructor.
Qed.

Lemma ACTS_supported (name : string) :
  is_Some (ACTS !! name) ↔ name ∈ ["relu"; "sigmoid"; "tanh"].
Proof.
  split.
  - intros [ctor Hctor%ACTS_lookup]. set_solver.
  - intros Hname.
    assert (name = "relu" ∨ name = "sigmoid" ∨ name = "tanh") as [->|[->| ->]]
      by set_solver; eexists; apply ACTS_lookup; repeat constructor.
Qed.

Lemma unsqueeze_0 (t : Tensor) : unsqueeze 0 t = Ok (mkTensor _ (1 :: shape t) (data t)).
Proof. unfold unsqueeze. rewrite decide_True by lia. by rewrite take_0, drop_0. Qed.

Lemma Sequential_call_3 (affine act bn : Layer) x :
  Sequential_call [affine; act; bn] x
  = '(t1, affine') ← call affine x;
    '(t2, act') ← call act t1;
    '(t3, bn') ← call bn t2;
    Ok (t3, [affine'; act'; bn']).
Proof.
  cbn. destruct (call affine x) as [[t1 affine']|e]; [|done]. cbn.
  destruct (call act t1) as [[t2 act']|e]; [|done]. cbn.
  by destruct (call bn t2) as [[t3 bn']|e].
Qed.

(** What [forward] does with the head, on a module whose head is made of
    three layers *)
Lemma forward_with_head self (affine act bn : Layer) x packed_input :
  embedding_to_hidden self = [affine; act; bn] →
  forward self (Single x) packed_input true
  = '(t1, affine') ← call affine x;
    '(t2, act') ← call act t1;
    '(t3, bn') ← call bn t2;
    let h := mkTensor _ (1 :: shape t3) (data t3) in
    '(out, decoder') ←
      CharDecoderRNN_forward (decoder self)
        (if bool_decide (mode self = "LSTM") then Dual h h else Single h)
        packed_input;
    Ok (out, mkCharDecoderHeadRNN (mode self) decoder' [affine'; act'; bn']).
Proof.
  intros Hhead. unfold forward. rewrite Hhead, Sequential_call_3.
  destruct (call affine x) as [[t1 affine']|e]; [|done]. cbn.
  destruct (call act t1) as [[t2 act']|e]; [|done]. cbn.
  destruct (call bn t2) as [[t3 bn']|e]; [|done]. cbn.
  by rewrite unsqueeze_0.
Qed.

(** The head of a constructed module: the three layers of the constructor,
    each after the calls made so far; the mode is the constructor's. *)
Lemma constructed_head mode0 hidden_size char_count char_embedding_size
    input_embedding_size activation self :
  constructed mode0 hidden_size char_count char_embedding_size
    input_embedding_size activation self →
  mode self = mode0
  ∧ ∃ ctor affine act bn,
      ACTS !! activation = Some ctor
      ∧ embedding_to_hidden self = [affine; act; bn]
      ∧ called (nn_Linear input_embedding_size hidden_size) affine
      ∧ called (ctor ()) act
      ∧ called (nn_BatchNorm1d hidden_size) bn.
Proof.
  induction 1 as [kwargs self Hinit
                 |self hidden packed_input use_head out self' _ IH Hfwd].
  - unfold CharDecoderHeadRNN_init, getitem in Hinit.
    destruct (CharDecoderRNN_init _ _ _ _ _) as [dec|e]; [|done].
    destruct (ACTS !! activation) as [ctor|] eqn:Hctor; [|done].
    cbn in Hinit. simplify_eq. split; [done|].
    exists ctor, (nn_Linear input_embedding_size hidden_size), (ctor ()),
      (nn_BatchNorm1d hidden_size).
    split_and!; by try constructor.
  - destruct IH as (Hmode & ctor & affine & act & bn & Hctor & Hhead & Ha & Hc & Hb).
    destruct use_head.
    + destruct hidden as [x|h c]; [|done].
      rewrite (forward_with_head _ _ _ _ _ _ Hhead) in Hfwd.
      destruct (call affine x) as [[t1 affine']|e] eqn:H1; [|done]. cbn in Hfwd.
      destruct (call act t1) as [[t2 act']|e] eqn:H2; [|done]. cbn in Hfwd.
      destruct (call bn t2) as [[t3 bn']|e] eqn:H3; [|done]. cbn in Hfwd.
      destruct (CharDecoderRNN_forward _ _ _) as [[out' dec']|e]; [|done].
      cbn in Hfwd. simplify_eq. split; [done|].
      exists ctor, affine', act', bn'.
      split_and!; [done|done|by econstructor..].
    + unfold forward in Hfwd. cbn in Hfwd.
      destruct (CharDecoderRNN_forward _ _ _) as [[out' dec']|e]; [|done].
      cbn in Hfwd. simplify_eq. split; [done|].
      by exists ctor, affine, act, bn.
Qed.


(** C5. On a constructed module, [forward] with [use_head] hands the inner
    decoder the word embedding passed, in this order, through the affine
    layer from the word-embedding size to the hidden size, the configured
    nonlinearity, the batch normalisation, and [unsqueeze(0)], which puts a
    dimension of size one in front; in LSTM mode both components of the
    state are that tensor. *)
Theorem head_pipeline (mode0 : string)
    (hidden_size char_count char_embedding_size input_embedding_size : nat)
    (activation : string) self x (packed_input : PackedInput) :
  constructed mode0 hidden_size char_count char_embedding_size
    input_embedding_size activation self →
  ∃ ctor affine act bn,
    (activation, ctor) ∈ [("relu", nn_ReLU); ("sigmoid", nn_Sigmoid); ("tanh", nn_Tanh)]
    ∧ called (nn_Linear input_embedding_size hidden_size) affine
    ∧ called (ctor ()) act
    ∧ called (nn_BatchNorm1d hidden_size) bn
    ∧ forward self (Single x) packed_input true
      = '(t1, affine') ← call affine x;
        '(t2, act') ← call act t1;
        '(t3, bn') ← call bn t2;
        let h := mkTensor _ (1 :: shape t3) (data t3) in
        '(out, decoder') ←
          CharDecoderRNN_forward (decoder self)
            (if bool_decide (mode0 = "LSTM") then Dual h h else Single h)
            packed_input;
        Ok (out, mkCharDecoderHeadRNN mode0 decoder' [affine'; act'; bn']).
Proof.
  intros (<- & ctor & affine & act & bn & Hctor & Hhead & Ha & Hc & Hb)%constructed_head.
  exists ctor, affine, act, bn. split_and!; [by apply ACTS_lookup|done..|].
  by apply forward_with_head.
Qed.

(** C6. On a module constructed in LSTM mode, a call of [forward] with
    [use_head] that returns has called the inner decoder on a pair whose two
    components are the same tensor, the output of the head with a leading
    dimension of size one. *)
Theorem lstm_state_duplicated
    (hidden_size char_count char_embedding_size input_embedding_size : nat)
    (activation : string) self x (packed_input : PackedInput) out self' :
  constructed "LSTM" hidden_size char_count char_embedding_size
    input_embedding_size activation self →
  forward self (Single x) packed_input true = Ok (out, self') →
  ∃ t h,
    fst <$> Sequential_call (embedding_to_hidden self) x = Ok t
    ∧ unsqueeze 0 t = Ok h
    ∧ CharDecoderRNN_forward (decoder self) (Dual h h) packed_input
      = Ok (out, decoder self').
Proof.
  intros [Hmode _]%constructed_head Hfwd. unfold forward in Hfwd.
  destruct (Sequential_call _ x) as [[t head]|e]; [|done]. cbn in Hfwd.
  rewrite unsqueeze_0 in Hfwd. cbn in Hfwd.
  rewrite Hmode, bool_decide_eq_true_2 in Hfwd by done.
  destruct (CharDecoderRNN_forward _ _ _) as [[out' dec']|e] eqn:Hdec; [|done].
  cbn in Hfwd. simplify_eq.
  eexists t, _. split_and!; [done|apply unsqueeze_0|done].
Qed.

(** C7. With [use_head] false, [forward] is the call of the recurrent core
    on the hidden state as it was passed: the head is not run, the mode and
    the head of the module are after the call what they were before, and
    the output is the same for any two modules with the same inner decoder,
    whatever calls were made on them before. *)
Theorem forward_without_head self hidden (packed_input : PackedInput) :
  forward self hidden packed_input false
  = ('(out, rnn') ← WrappedRNN_call (rnn (decoder self)) hidden packed_input;
     Ok (out, mkCharDecoderHeadRNN (mode self) (mkCharDecoderRNN rnn')
                (embedding_to_hidden self)))
  ∧ (∀ out self', forward self hidden packed_input false = Ok (out, self') →
       mode self' = mode self
       ∧ embedding_to_hidden self' = embedding_to_hidden self)
  ∧ (∀ other, decoder other = decoder self →
       fst <$> forward other hidden packed_input false
       = fst <$> forward self hidden packed_input false).
Proof.
  assert (∀ m, forward m hidden packed_input false
          = ('(out, rnn') ← WrappedRNN_call (rnn (decoder m)) hidden packed_input;
             Ok (out, mkCharDecoderHeadRNN (mode m) (mkCharDecoderRNN rnn')
                        (embedding_to_hidden m)))) as Heq.
  { intros m. unfold forward, CharDecoderRNN_forward. cbn.
    by destruct (WrappedRNN_call _ _ _) as [[out rnn']|e]. }
  split_and!; [done| |].
  - intros out self'. rewrite Heq.
    destruct (WrappedRNN_call _ _ _) as [[out' rnn']|e]; [|done].
    cbn. by intros [= <- <-].
  - intros other Hdec. rewrite !Heq, Hdec.
    by destruct (WrappedRNN_call _ _ _) as [[out' rnn']|e].
Qed.

(** C8. The name of the nonlinearity is looked up in [ACTS] by the
    constructor: with a name other than relu, sigmoid and tanh the
    constructor raises (KeyError, when the inner decoder was built), so that
    there is no module to call; with one of the three names it returns
    whenever the inner decoder can be built. *)
Theorem activation_checked_at_construction (mode0 : string)
    (hidden_size char_count char_embedding_size input_embedding_size : nat)
    (activation : string) (kwargs : gmap string PyObject) :
  let init := CharDecoderHeadRNN_init mode0 hidden_size char_count
                char_embedding_size input_embedding_size activation kwargs in
  let inner := CharDecoderRNN_init mode0 hidden_size char_count
                 char_embedding_size ∅ in
  (activation ∉ ["relu"; "sigmoid"; "tanh"] →
     ¬ is_Ok init ∧ (is_Ok inner → init = Err KeyError))
  ∧ (activation ∈ ["relu"; "sigmoid"; "tanh"] → is_Ok inner → is_Ok init).
Proof.
  intros init inner. subst init inner.
  unfold CharDecoderHeadRNN_init, getitem. split.
  - intros Hname. rewrite <-ACTS_supported, <-eq_None_not_Some in Hname.
    rewrite Hname.
    destruct (CharDecoderRNN_init _ _ _ _ _) as [dec|e]; cbn; split; tauto.
  - intros [ctor Hctor]%ACTS_supported Hinner. rewrite Hctor.
    by destruct (CharDecoderRNN_init _ _ _ _ _) as [dec|e].
Qed.

(** C9. The keyword arguments of the constructor are dropped: the
    constructor returns the same with them as without them, and the inner
    decoder of the module is the one built without keyword arguments, its
    recurrent core the one built from an empty dictionary of them. *)
Theorem kwargs_discarded (mode0 : string)
    (hidden_size char_count char_embedding_size input_embedding_size : nat)
    (activation : string) (kwargs : gmap string PyObject) :
  CharDecoderHeadRNN_init mode0 hidden_size char_count char_embedding_size
    input_embedding_size activation kwargs
  = CharDecoderHeadRNN_init mode0 hidden_size char_count char_embedding_size
      input_embedding_size activation ∅
  ∧ ∀ self,
      CharDecoderHeadRNN_init mode0 hidden_size char_count char_embedding_size
        input_embedding_size activation kwargs = Ok self →
      CharDecoderRNN_init mode0 hidden_size char_count char_embedding_size ∅
      = Ok (decoder self)
      ∧ WrappedRNN_init mode0 char_embedding_size hidden_size
          (nn_Embedding char_count char_embedding_size)
          (nn_Linear hidden_size char_count) 1 ∅
        = Ok (rnn (decoder self)).
Proof.
  split; [done|]. intros self Hinit.
  unfold CharDecoderHeadRNN_init, getitem in Hinit.
  destruct (CharDecoderRNN_init _ _ _ _ _) as [dec|e] eqn:Hdec; [|done].
  destruct (ACTS !! activation) as [ctor|]; [|done].
  cbn in Hinit. simplify_eq. cbn. split; [done|].
  unfold CharDecoderRNN_init in Hdec.
  destruct (WrappedRNN_init _ _ _ _ _ _ _) as [core|e]; [|done].
  cbn in Hdec. by simplify_eq.
Qed.

End modules_facts.

(** ** The generation loop *)

Section generate_facts.
Context {float : Float} {torch : Torch}.

Lemma string_app_assoc (s1 s2 s3 : string) : (s1 +:+ s2) +:+ s3 = s1 +:+ (s2 +:+ s3).
Proof.
  induction s1 as [|c s1 IH]; [done|].
  change (String c s1 +:+ s2) with (String c (s1 +:+ s2)).
  change (String c (s1 +:+ s2) +:+ s3) with (String c ((s1 +:+ s2) +:+ s3)).
  change (String c s1 +:+ (s2 +:+ s3)) with (String c (s1 +:+ (s2 +:+ s3))).
  by rewrite IH.
Qed.

(** What the loop returns starts with what was put out before it. *)
Lemma generate_loop_prefix (idx2char : gmap nat string) fuel test_model hid inp out s :
  generate_loop idx2char fuel test_model hid inp out = Some (Ok s) →
  ∃ rest, s = out +:+ rest.
Proof.
  revert test_model hid inp out.
  induction fuel as [|fuel IH]; intros test_model hid inp out Hrun; [done|].
  cbn [generate_loop] in Hrun.
  destruct (forward test_model hid inp false) as [[[pout hid'] model']|e]; [|done].
  cbn [result_then] in Hrun.
  destruct (getitem idx2char (data_argmax pout)) as [c|e]; [|done].
  cbn [result_then] in Hrun. case_bool_decide.
  - simplify_eq. exists "". clear. induction s as [|c s IH]; [done|].
    change (String c s +:+ "") with (String c (s +:+ "")). by rewrite <-IH.
  - apply IH in Hrun as [rest ->]. exists (c +:+ rest). apply string_app_assoc.
Qed.

(** The first character is put out whatever it is: when the first step
    gives END, the loop starts with the name of the sentinel as its output,
    and a generation that returns does not return the empty string. *)
Lemma generate_END_at_first_step (char2idx : gmap string nat)
    (idx2char : gmap nat string) fuel test_model hid start pout hid' test_model' :
  char2idx !! "START" = Some start →
  forward test_model hid (pack_sequence [[start]]) true
  = Ok ((pout, hid'), test_model') →
  idx2char !! data_argmax pout = Some "END" →
  generate char2idx idx2char fuel test_model hid
  = generate_loop idx2char fuel test_model' hid'
      (pack_sequence [[data_argmax pout]]) "END"
  ∧ ∀ s, generate char2idx idx2char fuel test_model hid = Some (Ok s) →
         ∃ rest, s = "END" +:+ rest.
Proof.
  intros Hstart Hfwd Hend.
  assert (generate char2idx idx2char fuel test_model hid
          = generate_loop idx2char fuel test_model' hid'
              (pack_sequence [[data_argmax pout]]) "END") as Heq.
  { unfold generate, getitem. rewrite Hstart. cbn [result_then].
    rewrite Hfwd. cbn [result_then]. by rewrite Hend. }
  split; [done|]. intros s. rewrite Heq. apply generate_loop_prefix.
Qed.

End generate_facts.

(** The end-to-end scenario of the specification: a until three characters
    are out, then END. *)
Example generate_three_a :
  generate (torch := stub_torch) scenario_char2idx scenario_idx2char 4
    (scenario_model "GRU" three_a) zero_embedding
  = Some (Ok "aaa").
Proof. reflexivity. Qed.

(** C1, at the input where the code departs from it.  On a model that
    gives END the highest score at every step, the generation returns the
    string "END" and not the empty string: the first character is put out
    before the loop, without the test for END that the loop makes.  On a
    model that gives END the highest score at the first step only, the
    generation goes on after it. *)
Theorem generate_END_first :
  (∀ fuel,
     generate (torch := stub_torch) scenario_char2idx scenario_idx2char (S fuel)
       (scenario_model "GRU" always_END) zero_embedding
     = Some (Ok "END"))
  ∧ generate (torch := stub_torch) scenario_char2idx scenario_idx2char 3
      (scenario_model "GRU" END_first) zero_embedding
    = Some (Ok "ENDaa").
Proof. split; [intros fuel|]; reflexivity. Qed.

(** ** The properties of the module, on the stubs *)

Lemma head_pipeline_witness :
  constructed (torch := stub_torch) "GRU" 4 5 4 4 "tanh" (scenario_model "GRU" always_END)
  ∧ ∃ ctor affine act bn,
      ("tanh", ctor) ∈ [("relu", nn_ReLU); ("sigmoid", nn_Sigmoid); ("tanh", nn_Tanh)]
      ∧ called (nn_Linear 4 4) affine
      ∧ called (ctor ()) act
      ∧ called (nn_BatchNorm1d 4) bn
      ∧ forward (torch := stub_torch) (scenario_model "GRU" always_END)
          (Single zero_vector) [[0]] true
        = '(t1, affine') ← call affine zero_vector;
          '(t2, act') ← call act t1;
          '(t3, bn') ← call bn t2;
          let h := mkTensor _ (1 :: shape t3) (data t3) in
          '(out, decoder') ←
            CharDecoderRNN_forward (decoder (scenario_model "GRU" always_END))
              (if bool_decide ("GRU" = "LSTM") then Dual h h else Single h) [[0]];
          Ok (out, mkCharDecoderHeadRNN "GRU" decoder' [affine'; act'; bn']).
Proof.
  assert (constructed (torch := stub_torch) "GRU" 4 5 4 4 "tanh"
            (scenario_model "GRU" always_END)) as Hself.
  { apply constructed_init with (kwargs := ∅). reflexivity. }
  split; [exact Hself|].
  apply (head_pipeline (torch := stub_torch) "GRU" 4 5 4 4 "tanh"
           (scenario_model "GRU" always_END) zero_vector [[0]] Hself).
Defined.

Lemma lstm_state_duplicated_witness :
  let out : @PackedOutput _ stub_torch * Hidden :=
    (1, Dual (mkTensor Z_float [1; 1; 4] [1; 0; 0; 0]%Z)
             (mkTensor Z_float [1; 1; 4] [0; 0; 0; 0]%Z)) in
  let self' : @CharDecoderHeadRNN _ stub_torch :=
    mkCharDecoderHeadRNN "LSTM" (mkCharDecoderRNN (always_END : @WrappedRNN _ stub_torch))
      [1; 1; 1] in
  constructed (torch := stub_torch) "LSTM" 4 5 4 4 "relu" (scenario_model "LSTM" always_END)
  ∧ forward (scenario_model "LSTM" always_END) (Single zero_vector) [[0]] true
    = Ok (out, self')
  ∧ ∃ t h,
      fst <$> Sequential_call (embedding_to_hidden (scenario_model "LSTM" always_END))
                zero_vector = Ok t
      ∧ unsqueeze 0 t = Ok h
      ∧ CharDecoderRNN_forward (decoder (scenario_model "LSTM" always_END))
          (Dual h h) [[0]]
        = Ok (out, decoder self').
Proof.
  intros out self'.
  assert (constructed (torch := stub_torch) "LSTM" 4 5 4 4 "relu"
            (scenario_model "LSTM" always_END)) as Hself.
  { apply constructed_init with (kwargs := ∅). reflexivity. }
  assert (forward (scenario_model "LSTM" always_END) (Single zero_vector) [[0]] true
          = Ok (out, self')) as Hfwd by reflexivity.
  split_and!; [exact Hself|exact Hfwd|].
  apply (lstm_state_duplicated (torch := stub_torch) 4 5 4 4 "relu"
           (scenario_model "LSTM" always_END) zero_vector [[0]] out self' Hself Hfwd).
Defined.

Lemma forward_without_head_witness :
  let self := scenario_model "GRU" three_a in
  forward (torch := stub_torch) self zero_embedding [[2]] false
  = Ok ((2, Single (mkTensor Z_float [1; 4] [1; 0; 0; 0]%Z)), self)
  ∧ ∀ other, decoder other = decoder self →
      fst <$> forward other zero_embedding [[2]] false
      = fst <$> forward self zero_embedding [[2]] false.
Proof.
  intros self. split; [reflexivity|].
  apply (forward_without_head (torch := stub_torch) self zero_embedding [[2]]).
Defined.

Lemma activation_checked_at_construction_witness :
  ("elu" ∉ ["relu"; "sigmoid"; "tanh"])
  ∧ ¬ is_Ok (CharDecoderHeadRNN_init (torch := stub_torch) "GRU" 4 5 4 4 "elu" ∅)
  ∧ ("sigmoid" ∈ ["relu"; "sigmoid"; "tanh"])
  ∧ is_Ok (CharDecoderRNN_init (torch := stub_torch) "GRU" 4 5 4 ∅)
  ∧ is_Ok (CharDecoderHeadRNN_init (torch := stub_torch) "GRU" 4 5 4 4 "sigmoid" ∅).
Proof.
  assert ("elu" ∉ ["relu"; "sigmoid"; "tanh"]) as Hout
    by set_solver.
  assert ("sigmoid" ∈ ["relu"; "sigmoid"; "tanh"]) as Hin
    by set_solver.
  assert (is_Ok (CharDecoderRNN_init (torch := stub_torch) "GRU" 4 5 4 ∅)) as Hinner
    by exact I.
  split_and!; [exact Hout| |exact Hin|exact Hinner|].
  - apply (proj1 (activation_checked_at_construction (torch := stub_torch)
                    "GRU" 4 5 4 4 "elu" ∅)). exact Hout.
  - apply (proj2 (activation_checked_at_construction (torch := stub_torch)
                    "GRU" 4 5 4 4 "sigmoid" ∅) Hin Hinner).
Defined.

Lemma kwargs_discarded_witness :
  let kwargs : gmap string Z := {["dropout" := 1%Z]} in
  CharDecoderHeadRNN_init (torch := stub_torch) "LSTM" 4 5 4 4 "tanh" kwargs
  = Ok (scenario_model "LSTM" always_END)
  ∧ CharDecoderHeadRNN_init (torch := stub_torch) "LSTM" 4 5 4 4 "tanh" kwargs
    = CharDecoderHeadRNN_init (torch := stub_torch) "LSTM" 4 5 4 4 "tanh" ∅
  ∧ CharDecoderRNN_init (torch := stub_torch) "LSTM" 4 5 4 ∅
    = Ok (decoder (scenario_model "LSTM" always_END)).
Proof.
  intros kwargs.
  assert (CharDecoderHeadRNN_init (torch := stub_torch) "LSTM" 4 5 4 4 "tanh" kwargs
          = Ok (scenario_model "LSTM" always_END)) as Hinit by reflexivity.
  pose proof (kwargs_discarded (torch := stub_torch) "LSTM" 4 5 4 4 "tanh" kwargs)
    as [Hsame Hinner].
  split_and!; [exact Hinit|exact Hsame|].
  exact (proj1 (Hinner _ Hinit)).
Defined.

(** * Further properties of the script *)

(** ** remove_duplicate_chars, on its own *)

Global Instance char_le_antisymm : AntiSymm (=) char_le.
Proof. unfold char_le. intros a b Hab Hba. apply ord_inj. lia. Qed.

Lemma char_lt_le (l : list ascii) : StronglySorted char_lt l → StronglySorted char_le l.
Proof.
  induction 1 as [|a l Hs IH Hall]; constructor; [done|].
  eapply Forall_impl; [done|]. unfold char_lt, char_le. intros x. cbn. lia.
Qed.

Lemma char_lt_NoDup (l : list ascii) : StronglySorted char_lt l → NoDup l.
Proof.
  induction 1 as [|a l Hs IH Hall]; constructor; [|done].
  intros Hin. rewrite Forall_forall in Hall. specialize (Hall a Hin).
  unfold char_lt in Hall. lia.
Qed.

Lemma sorted_chars_unchanged (l : list ascii) :
  StronglySorted char_lt l →
  sorted_chars (elements (list_to_set l : gset ascii)) = l.
Proof.
  intros Hl. apply (StronglySorted_unique char_le).
  - apply StronglySorted_merge_sort; apply _.
  - by apply char_lt_le.
  - unfold sorted_chars. rewrite merge_sort_Permutation.
    apply elements_list_to_set. by apply char_lt_NoDup.
Qed.

Lemma remove_duplicate_chars_unchanged (letters : string) :
  StronglySorted char_lt (String.list_ascii_of_string letters) →
  remove_duplicate_chars letters = letters.
Proof.
  intros Hl. unfold remove_duplicate_chars.
  rewrite sorted_chars_unchanged by done.
  apply String.string_of_list_ascii_of_string.
Qed.

Lemma remove_duplicate_chars_length (letters : string) :
  String.length (remove_duplicate_chars letters) ≤ String.length letters.
Proof.
  rewrite <-!length_list_ascii_of_string.
  apply submseteq_length, NoDup_submseteq; [apply remove_duplicate_chars_NoDup|].
  intros c. by rewrite remove_duplicate_chars_elem.
Qed.

(** X1. [remove_duplicate_chars] returns the characters of its argument,
    each once, in strictly increasing order of code point; the result is no
    longer than the argument, and a second application changes nothing. *)
Theorem remove_duplicate_chars_sorted_once (letters : string) :
  let cleaned := remove_duplicate_chars letters in
  (∀ c, c ∈ String.list_ascii_of_string cleaned
        ↔ c ∈ String.list_ascii_of_string letters)
  ∧ StronglySorted char_lt (String.list_ascii_of_string cleaned)
  ∧ String.length cleaned ≤ String.length letters
  ∧ remove_duplicate_chars cleaned = cleaned.
Proof.
  intros cleaned. split_and!.
  - apply remove_duplicate_chars_elem.
  - apply remove_duplicate_chars_sorted.
  - apply remove_duplicate_chars_length.
  - apply remove_duplicate_chars_unchanged, remove_duplicate_chars_sorted.
Qed.

(** X2. The result of [remove_duplicate_chars] depends on the set of
    characters of its argument only: two strings with the same characters,
    in whatever order and number, give the same string. *)
Theorem remove_duplicate_chars_same_chars (letters1 letters2 : string) :
  (∀ c, c ∈ String.list_ascii_of_string letters1
        ↔ c ∈ String.list_ascii_of_string letters2) →
  remove_duplicate_chars letters1 = remove_duplicate_chars letters2.
Proof.
  intros Hsame. unfold remove_duplicate_chars. do 3 f_equal.
  apply set_eq. intros c. by rewrite !elem_of_list_to_set.
Qed.

Lemma remove_duplicate_chars_same_chars_witness :
  (∀ c, c ∈ String.list_ascii_of_string "banana"
        ↔ c ∈ String.list_ascii_of_string "nab")
  ∧ remove_duplicate_chars "banana" = remove_duplicate_chars "nab".
Proof.
  assert (∀ c, c ∈ String.list_ascii_of_string "banana"
               ↔ c ∈ String.list_ascii_of_string "nab") as Hsame.
  { intros c. cbn. set_solver. }
  split; [exact Hsame|].
  apply (remove_duplicate_chars_same_chars "banana" "nab" Hsame).
Defined.

(** ** filter_words, on its own *)

Section filter_words_more.
Context {re : Re} {V : Type}.
Implicit Types (d out : gmap string V).

Lemma re_match_negated (rest word : string) :
  plain rest →
  re_match ("^[" +:+ String "^"%char rest +:+ "]+$") word
  = Ok (match_class_plus
          (λ c, negb (bool_decide (c ∈ String.list_ascii_of_string rest)))
          (String.list_ascii_of_string word)).
Proof.
  intros [Hne Hplain]. unfold re_match.
  rewrite !list_ascii_of_string_app. cbn.
  apply Forall_forall in Hplain.
  rewrite !(bool_decide_eq_true_2 (_ = _)) by done. cbn [andb].
  rewrite parse_set_plain; [|done|left; by destruct rest].
  cbn [app]. rewrite bool_decide_eq_true_2 by done.
  f_equal. apply match_class_plus_ext. intros c.
  rewrite <-in_class_literals. unfold in_class. by destruct (existsb _ _).
Qed.

(** The words that a class followed by [+$] matches: those made of one or
    more characters of the class, with or without one newline after them *)
Lemma match_class_plus_words (P : ascii → Prop) `{∀ c, Decision (P c)} (word : string) :
  match_class_plus (λ c, bool_decide (P c)) (String.list_ascii_of_string word) = true
  ↔ (word ≠ "" ∧ ∀ c, c ∈ String.list_ascii_of_string word → P c)
    ∨ ∃ word', word = word' +:+ newline
        ∧ word' ≠ "" ∧ ∀ c, c ∈ String.list_ascii_of_string word' → P c.
Proof.
  rewrite match_class_plus_true. split.
  - intros (p & Hne & Hp & Hw).
    assert (∀ c, c ∈ p → P c) as Hp'.
    { intros c Hc. rewrite Forall_forall in Hp.
      specialize (Hp c Hc). by apply bool_decide_eq_true in Hp. }
    destruct Hw as [Hw|Hw].
    + left. rewrite Hw. split; [|done]. intros ->. by subst.
    + right. exists (String.string_of_list_ascii p).
      rewrite String.list_ascii_of_string_of_list_ascii. split_and!; [|by destruct p|done].
      rewrite <-(String.string_of_list_ascii_of_string word), Hw.
      rewrite <-(String.string_of_list_ascii_of_string (_ +:+ _)).
      by rewrite list_ascii_of_string_app, String.list_ascii_of_string_of_list_ascii.
  - intros [[Hne Hw]|(word' & -> & Hne & Hw)].
    + exists (String.list_ascii_of_string word). split_and!; [by destruct word| |by left].
      apply Forall_forall. intros c Hc. apply bool_decide_eq_true. by apply Hw.
    + exists (String.list_ascii_of_string word'). split_and!; [by destruct word'| |].
      * apply Forall_forall. intros c Hc. apply bool_decide_eq_true. by apply Hw.
      * right. by rewrite list_ascii_of_string_app.
Qed.

Lemma plain_remove_duplicate_chars (letters : string) :
  plain letters → plain (remove_duplicate_chars letters).
Proof.
  intros [Hne Hplain]. split.
  - intros Hempty.
    assert (∀ c, c ∉ String.list_ascii_of_string letters) as Hnone.
    { intros c Hc. apply (proj2 (remove_duplicate_chars_elem letters c)) in Hc.
      rewrite Hempty in Hc. by apply elem_of_nil in Hc. }
    destruct letters as [|c letters]; [done|].
    destruct (Hnone c). cbn. left.
  - intros c Hc. apply Hplain. by apply remove_duplicate_chars_elem.
Qed.

(** X3. What [filter_words] returns is a part of the dictionary it was
    given: every word it keeps is a word of the dictionary, with the same
    vector; and filtering the result again with the same letters returns
    it unchanged. *)
Theorem filter_words_subdict_idempotent d (letters : string) out :
  filter_words d letters = Ok out →
  out ⊆ d ∧ filter_words out letters = Ok out.
Proof.
  intros Hrun. pose proof (filter_words_lookup _ _ _ Hrun) as Hout. split.
  - apply map_subseteq_spec. intros w v Hw. by apply Hout.
  - destruct (filter_words out letters) as [out'|e] eqn:Hagain.
    + f_equal. apply map_eq. intros w. apply option_eq. intros v.
      rewrite (filter_words_lookup _ _ _ Hagain w v), !Hout. tauto.
    + apply filter_words_Err in Hagain as (w & [v Hw] & He).
      apply Hout in Hw as [_ Hpass]. unfold passes in Hpass. congruence.
Qed.

(** X4. The pattern is compiled when the first word is matched, not
    before: on the empty dictionary [filter_words] returns the empty
    dictionary whatever the letters, and with the empty string for letters,
    which makes a pattern that does not compile, it raises [re.error] on
    every other dictionary. *)
Theorem filter_words_empty_inputs d (letters : string) :
  filter_words (∅ : gmap string V) letters = Ok ∅
  ∧ (d ≠ ∅ → filter_words d "" = Err re_error).
Proof.
  split.
  - unfold filter_words. by rewrite map_to_list_empty.
  - intros Hne. unfold filter_words.
    destruct (map_to_list d) as [|[w v] items] eqn:Hitems.
    + by apply map_to_list_empty_iff in Hitems.
    + reflexivity.
Qed.

(** X5. With letters that are not empty and hold none of the characters
    \ ] ^ - the filter does what its docstring says, up to the newline that
    [$] lets through: it returns, and keeps exactly the words of the
    dictionary that are made of one or more of the letters, or are such a
    word followed by one newline. *)
Theorem filter_words_plain_letters d (letters : string) :
  plain letters →
  ∃ out, filter_words d letters = Ok out
    ∧ ∀ w v, out !! w = Some v
        ↔ d !! w = Some v
          ∧ (composed_of letters w
             ∨ ∃ w', w = w' +:+ newline ∧ composed_of letters w').
Proof.
  intros Hplain.
  destruct (filter_words d letters) as [out|e] eqn:Hrun.
  - exists out. split; [done|]. intros w v.
    rewrite (filter_words_lookup _ _ _ Hrun). unfold passes.
    rewrite re_match_plain by done.
    pose proof (match_class_plus_words
                  (λ c, c ∈ String.list_ascii_of_string letters) w) as Hw.
    cbn beta in Hw. unfold composed_of. rewrite <-Hw.
    split; intros [? ?]; split; congruence.
  - apply filter_words_Err in Hrun as (w & _ & He).
    by rewrite re_match_plain in He.
Qed.

(** X6. A [^] at the head of the letters turns the filter round: when the
    letters after it are not empty and hold none of \ ] ^ - the filter keeps
    exactly the words made of one or more characters that are not among
    them, or such a word followed by one newline. *)
Theorem filter_words_negated_letters d (rest : string) :
  plain rest →
  ∃ out, filter_words d (String "^"%char rest) = Ok out
    ∧ ∀ w v, out !! w = Some v
        ↔ d !! w = Some v
          ∧ (avoids rest w ∨ ∃ w', w = w' +:+ newline ∧ avoids rest w').
Proof.
  intros Hplain.
  destruct (filter_words d (String "^"%char rest)) as [out|e] eqn:Hrun.
  - exists out. split; [done|]. intros w v.
    rewrite (filter_words_lookup _ _ _ Hrun). unfold passes.
    rewrite re_match_negated by done.
    assert (∀ l, match_class_plus
                   (λ c, negb (bool_decide (c ∈ String.list_ascii_of_string rest))) l
                 = match_class_plus
                     (λ c, bool_decide (c ∉ String.list_ascii_of_string rest)) l) as ->.
    { intros l. apply match_class_plus_ext. intros c. by rewrite bool_decide_not. }
    pose proof (match_class_plus_words
                  (λ c, c ∉ String.list_ascii_of_string rest) w) as Hw.
    cbn beta in Hw. unfold avoids. rewrite <-Hw.
    split; intros [? ?]; split; congruence.
  - apply filter_words_Err in Hrun as (w & _ & He).
    by rewrite re_match_negated in He.
Qed.

(** X7. For letters that are not empty and hold none of \ ] ^ - the
    cleaning that [pickle_word_vecs] does first is of no consequence for the
    filter: the sorted, duplicate-free letters keep the same words. *)
Theorem filter_words_cleaned_letters d (letters : string) :
  plain letters →
  filter_words d (remove_duplicate_chars letters) = filter_words d letters.
Proof.
  intros Hplain. unfold filter_words.
  generalize (∅ : gmap string V).
  induction (map_to_list d) as [|[w v] items IH]; intros out; [done|].
  cbn [filter_words_loop].
  rewrite !re_match_plain by auto using plain_remove_duplicate_chars.
  rewrite (match_class_plus_ext _
             (λ c, bool_decide (c ∈ String.list_ascii_of_string letters))).
  - cbn. apply IH.
  - intros c. apply bool_decide_ext, remove_duplicate_chars_elem.
Qed.

End filter_words_more.

(** ** The word tables of pickle_word_vecs *)

Section word_tables_facts.
Context {float : Float}.
Implicit Types (f : gmap string (list F)) (t : word_tables) (ws : list string).

Lemma fill_word_tables_app f dim ws1 ws2 t :
  fill_word_tables f dim (ws1 ++ ws2) t
  = fill_word_tables f dim ws1 t ≫= fill_word_tables f dim ws2.
Proof.
  revert t. induction ws1 as [|w ws1 IH]; intros t; [done|].
  cbn. destruct (getitem f w) as [vec|e]; [|done]. cbn.
  destruct (set_row _ _ _ _) as [wv|e]; [|done]. cbn. apply IH.
Qed.

Lemma set_row_Ok (wv : list (list F)) dim i vec wv' :
  set_row wv dim i vec = Ok wv' →
  i < length wv
  ∧ length wv' = length wv
  ∧ (∀ j, j ≠ i → wv' !! j = wv !! j)
  ∧ (length vec = dim ∧ wv' !! i = Some vec
     ∨ length vec ≠ dim ∧ ∃ x, vec = [x] ∧ wv' !! i = Some (replicate dim x)).
Proof.
  unfold set_row. intros Hset.
  destruct (decide (length wv ≤ i)); [done|].
  assert (i < length wv) as Hi by lia.
  destruct (decide (length vec = dim)).
  - simplify_eq. split_and!; [done|by rewrite length_insert| |].
    + intros j Hj. by rewrite list_lookup_insert_ne.
    + left. split; [done|]. by apply list_lookup_insert_eq.
  - destruct vec as [|x [|??]]; simplify_eq.
    split_and!; [done|by rewrite length_insert| |].
    + intros j Hj. by rewrite list_lookup_insert_ne.
    + right. split; [done|]. exists x. split; [done|]. by apply list_lookup_insert_eq.
Qed.

(** The tables after the loop over [ws], started on empty dictionaries. *)
Lemma fill_word_tables_Ok f dim ws (rows : list (list F)) t :
  NoDup ws →
  fill_word_tables f dim ws (WordTables _ ∅ ∅ rows 0) = Ok t →
  next_i t = length ws
  ∧ length ws ≤ length rows
  ∧ length (word_vecs t) = length rows
  ∧ (∀ w i, word2idx t !! w = Some i ↔ ws !! i = Some w)
  ∧ (∀ w i, idx2word t !! i = Some w ↔ ws !! i = Some w)
  ∧ (∀ j, length ws ≤ j → word_vecs t !! j = rows !! j)
  ∧ (∀ w j, ws !! j = Some w →
       ∃ vec, f !! w = Some vec
         ∧ (length vec = dim ∧ word_vecs t !! j = Some vec
            ∨ length vec ≠ dim ∧ ∃ x, vec = [x]
                ∧ word_vecs t !! j = Some (replicate dim x))).
Proof.
  revert t. induction ws as [|w ws IH] using rev_ind; intros t Hnd Hrun.
  { cbn in Hrun. simplify_eq. cbn.
    split_and!; try (intros; rewrite ?lookup_empty, ?lookup_nil); try done; lia. }
  rewrite fill_word_tables_app in Hrun.
  apply NoDup_app in Hnd as (Hnd & Hw & _).
  destruct (fill_word_tables f dim ws _) as [t1|e] eqn:Hws; [|done].
  destruct (IH t1 Hnd eq_refl) as (Hnext & Hlen & Hrows & Hw2i & Hi2w & Hrest & Hvecs).
  cbn in Hrun. unfold getitem in Hrun.
  destruct (f !! w) as [vec|] eqn:Hvec; [|done]. cbn in Hrun.
  destruct (set_row _ _ _ _) as [wv|e] eqn:Hset; [|done]. cbn in Hrun.
  simplify_eq. cbn.
  apply set_row_Ok in Hset as (Hi & Hwv & Hother & Hrow).
  rewrite Hnext in *. rewrite length_app. cbn.
  assert (w ∉ ws) as Hfresh by (intros Hin; by apply (Hw w Hin), list_elem_of_here).
  split_and!; [lia|lia|lia| | | |].
  - intros w' i. destruct (decide (w' = w)) as [->|Hne].
    + rewrite lookup_insert_eq. split.
      * intros [= <-]. by rewrite lookup_app_r, Nat.sub_diag.
      * intros Hin. f_equal.
        destruct (decide (i < length ws)) as [Hlt|Hge].
        -- rewrite lookup_app_l in Hin by done.
           destruct Hfresh. by eapply list_elem_of_lookup_2.
        -- apply lookup_lt_Some in Hin. rewrite length_app in Hin. cbn in Hin. lia.
    + rewrite lookup_insert_ne by done. rewrite Hw2i. split.
      * intros Hin. rewrite lookup_app_l; [done|]. by eapply lookup_lt_Some.
      * intros Hin. destruct (decide (i < length ws)) as [Hlt|Hge].
        -- by rewrite lookup_app_l in Hin.
        -- rewrite lookup_app_r in Hin by lia.
           apply list_lookup_singleton_Some in Hin as [_ ?]. done.
  - intros w' i. destruct (decide (i = length ws)) as [->|Hne].
    + rewrite lookup_insert_eq, lookup_app_r, Nat.sub_diag by lia. cbn.
      split; congruence.
    + rewrite lookup_insert_ne by done. rewrite Hi2w. split.
      * intros Hin. rewrite lookup_app_l; [done|]. by eapply lookup_lt_Some.
      * intros Hin. destruct (decide (i < length ws)) as [Hlt|Hge].
        -- by rewrite lookup_app_l in Hin.
        -- apply lookup_lt_Some in Hin. rewrite length_app in Hin. cbn in Hin. lia.
  - intros j Hj. rewrite Hother by lia. apply Hrest. lia.
  - intros w' j Hin. destruct (decide (j < length ws)) as [Hlt|Hge].
    + rewrite lookup_app_l in Hin by done. rewrite Hother by lia. by apply Hvecs.
    + rewrite lookup_app_r in Hin by lia.
      apply list_lookup_singleton_Some in Hin as [Hj <-].
      assert (j = length ws) as -> by lia. by exists vec.
Qed.

(** The loop can only fail on a vector of the wrong size. *)
Lemma fill_word_tables_Err f dim ws t e :
  fill_word_tables f dim ws t = Err e →
  (∀ w, w ∈ ws → is_Some (f !! w)) →
  next_i t + length ws ≤ length (word_vecs t) →
  e = RuntimeError
  ∧ ∃ w vec, w ∈ ws ∧ f !! w = Some vec ∧ length vec ≠ dim ∧ length vec ≠ 1.
Proof.
  revert t. induction ws as [|w ws IH]; intros t Hrun Hkeys Hlen; [done|].
  cbn in Hrun. unfold getitem in Hrun.
  destruct (Hkeys w) as [vec Hvec]; [left|]. rewrite Hvec in Hrun. cbn in Hrun.
  cbn in Hlen.
  destruct (set_row _ _ _ _) as [wv|e'] eqn:Hset; cbn in Hrun.
  - apply set_row_Ok in Hset as (_ & Hwv & _).
    apply IH in Hrun as (-> & w' & vec' & ? & ? & ? & ?).
    + split; [done|]. exists w', vec'. split_and!; [by right|done..].
    + intros w' Hw'. apply Hkeys. by right.
    + cbn. lia.
  - simplify_eq. unfold set_row in Hset.
    destruct (decide _); [lia|].
    destruct (decide (length vec = dim)); [done|].
    destruct vec as [|x [|??]]; simplify_eq; (split; [done|]);
      eexists w, _; (split_and!; [left|done|done|done]).
Qed.

End word_tables_facts.

Section pickle_word_vecs_more.
Context {re : Re} {float : Float}.
Implicit Types (d f : gmap string (list F)).

Lemma enumerate_lookup `{Countable K} (ks : list K) (k : K) (i : nat) :
  NoDup ks →
  dict (zip ks (seq 0 (length ks))) !! k = Some i ↔ ks !! i = Some k.
Proof.
  intros Hnd. rewrite dict_lookup by (by rewrite fst_zip by (rewrite length_seq; lia)).
  rewrite elem_of_lookup_zip_with. split.
  - intros (j & k' & i' & [= -> ->] & Hk & Hi). by apply lookup_seq in Hi as [-> _].
  - intros Hk. exists i, k, i. split_and!; [done..|].
    apply lookup_seq. split; [done|]. by eapply lookup_lt_Some.
Qed.

(** The sorted words of a dictionary: its keys, each once, in order *)
Lemma sorted_words_keys f :
  let ws := sorted_words (map_to_list f).*1 in
  NoDup ws ∧ StronglySorted String.le ws ∧ ∀ w, w ∈ ws ↔ is_Some (f !! w).
Proof.
  intros ws. unfold ws, sorted_words. split_and!.
  - rewrite merge_sort_Permutation. apply NoDup_fst_map_to_list.
  - apply StronglySorted_merge_sort; apply _.
  - intros w. rewrite merge_sort_Permutation, list_elem_of_fmap. split.
    + intros ([w' v] & -> & Hin). exists v. by apply elem_of_map_to_list.
    + intros [v Hv]. exists (w, v). split; [done|]. by apply elem_of_map_to_list.
Qed.

(** A run whose filter returns a dictionary that is not empty goes on to
    the loop that fills the tables, and saves the two files if the loop
    returns. *)
Lemma pickle_word_vecs_filtered output_path d letters f :
  filter_words d (remove_duplicate_chars letters) = Ok f →
  f ≠ ∅ →
  let ws := sorted_words (map_to_list f).*1 in
  ∃ first v0,
    ws !! 0 = Some first
    ∧ d !! first = Some v0
    ∧ f !! first = Some v0
    ∧ pickle_word_vecs output_path d letters
      = match fill_word_tables f (length v0) ws
                (WordTables _ ∅ ∅
                   (replicate (length ws) (replicate (length v0) zero)) 0) with
        | Ok t => (saved_files output_path letters t, Ok ())
        | Err e => ([], Err e)
        end.
Proof.
  intros Hf Hne ws.
  destruct (sorted_words_keys f) as (Hnd & _ & Hkeys). fold ws in Hnd, Hkeys.
  apply map_choose in Hne as (w & v & Hw).
  destruct ws as [|first rest] eqn:Hws.
  { assert (w ∈ []) as Hin%elem_of_nil by (apply Hkeys; eauto). done. }
  destruct (Hkeys first) as [[v0 Hv0] _]; [left|].
  pose proof (proj1 (filter_words_lookup _ _ _ Hf first v0) Hv0) as [Hd _].
  exists first, v0. split_and!; [done..|].
  unfold pickle_word_vecs. rewrite Hf. cbn [lift io_bind].
  fold ws. rewrite Hws. cbn [index lookup list_lookup]. cbn [io_bind].
  unfold getitem. rewrite Hd. cbn [lift io_bind].
  by destruct (fill_word_tables _ _ _ _) as [t|e].
Qed.

(** The words file of a run, with the state of the loop it was saved from *)
Lemma pickle_word_vecs_words output_path d letters file w2i i2w vecs :
  (file, WordsPkl w2i i2w vecs) ∈ (pickle_word_vecs output_path d letters).1 →
  ∃ f first v0 t,
    filter_words d (remove_duplicate_chars letters) = Ok f
    ∧ sorted_words (map_to_list f).*1 !! 0 = Some first
    ∧ d !! first = Some v0
    ∧ fill_word_tables f (length v0) (sorted_words (map_to_list f).*1)
        (WordTables _ ∅ ∅
           (replicate (length (sorted_words (map_to_list f).*1))
              (replicate (length v0) zero)) 0) = Ok t
    ∧ file = output_path +:+ "_words.pkl"
    ∧ w2i = word2idx t ∧ i2w = idx2word t ∧ vecs = word_vecs t.
Proof.
  intros Hin.
  destruct (pickle_word_vecs_cases output_path d letters)
    as [[e Hrun]|(f & t' & Hf & Hne & Hrun')].
  { rewrite Hrun in Hin. by apply elem_of_nil in Hin. }
  destruct (pickle_word_vecs_filtered output_path d letters f Hf Hne)
    as (first & v0 & Hfirst & Hd & _ & Hrun).
  rewrite Hrun in Hin.
  destruct (fill_word_tables _ _ _ _) as [t|e] eqn:Hfill;
    [|by apply elem_of_nil in Hin].
  cbn in Hin. unfold saved_files in Hin.
  apply elem_of_cons in Hin as [[= -> -> -> ->]|Hin].
  - by exists f, first, v0, t.
  - by apply list_elem_of_singleton in Hin as [=].
Qed.

Lemma sorted_lookup_le (ws : list string) i1 i2 w1 w2 :
  StronglySorted String.le ws →
  ws !! i1 = Some w1 → ws !! i2 = Some w2 → i1 ≤ i2 → String.le w1 w2.
Proof.
  intros Hs. revert i1 i2.
  induction Hs as [|w ws Hs IH Hall]; intros i1 i2 H1 H2 Hle; [done|].
  destruct i1 as [|i1], i2 as [|i2]; simplify_eq/=; [done| |lia|].
  - rewrite Forall_forall in Hall. apply Hall. by eapply list_elem_of_lookup_2.
  - apply (IH i1 i2); [done..|lia].
Qed.

(** The state of the loop of a run that saved its words file *)
Lemma pickle_word_vecs_tables output_path d letters file w2i i2w vecs :
  (file, WordsPkl w2i i2w vecs) ∈ (pickle_word_vecs output_path d letters).1 →
  ∃ f (ws : list string) first v0,
    filter_words d (remove_duplicate_chars letters) = Ok f
    ∧ NoDup ws ∧ StronglySorted String.le ws
    ∧ (∀ w, w ∈ ws ↔ is_Some (f !! w))
    ∧ ws !! 0 = Some first ∧ d !! first = Some v0
    ∧ length vecs = length ws
    ∧ (∀ w i, w2i !! w = Some i ↔ ws !! i = Some w)
    ∧ (∀ w i, i2w !! i = Some w ↔ ws !! i = Some w)
    ∧ (∀ w j, ws !! j = Some w →
         ∃ vec, f !! w = Some vec
           ∧ (length vec = length v0 ∧ vecs !! j = Some vec
              ∨ length vec ≠ length v0 ∧ ∃ x, vec = [x]
                  ∧ vecs !! j = Some (replicate (length v0) x))).
Proof.
  intros (f & first & v0 & t & Hf & Hfirst & Hd & Hfill & _ & -> & -> & ->)
    %pickle_word_vecs_words.
  pose proof (sorted_words_keys f) as Hws. cbn zeta in Hws.
  destruct Hws as (Hnd & Hsorted & Hkeys).
  pose proof (fill_word_tables_Ok f (length v0) _ _ t Hnd Hfill)
    as (_ & _ & Hlen & Hw2i & Hi2w & _ & Hvecs).
  rewrite length_replicate in Hlen.
  by exists f, (sorted_words (map_to_list f).*1), first, v0.
Qed.

(** X8. The word tables that [pickle_word_vecs] saves number the words
    that pass the filter from 0 on, in the sorted order of the words:
    [word2idx] has exactly those words as keys, [idx2word] is its inverse,
    the indices are those below the number of words, and a word with a
    smaller index is a smaller word. *)
Theorem word_tables_number_sorted_words
    (output_path : string) d (letters file : string)
    (w2i : gmap string nat) (i2w : gmap nat string) (vecs : list (list F)) :
  (file, WordsPkl w2i i2w vecs) ∈ (pickle_word_vecs output_path d letters).1 →
  file = output_path +:+ "_words.pkl"
  ∧ (∀ w, is_Some (w2i !! w)
          ↔ ∃ v, d !! w = Some v ∧ passes (remove_duplicate_chars letters) w)
  ∧ (∀ w i, i2w !! i = Some w ↔ w2i !! w = Some i)
  ∧ (∀ i, i < size w2i ↔ ∃ w, w2i !! w = Some i)
  ∧ (∀ w1 w2 i1 i2, w2i !! w1 = Some i1 → w2i !! w2 = Some i2 →
       i1 ≤ i2 → String.le w1 w2).
Proof.
  intros Hin.
  assert (file = output_path +:+ "_words.pkl") as Hfile.
  { by apply pickle_word_vecs_words in Hin as (? & ? & ? & ? & _ & _ & _ & _ & ? & _). }
  apply pickle_word_vecs_tables in Hin
    as (f & ws & first & v0 & Hf & Hnd & Hsorted & Hkeys & _ & _ & _ & Hw2i & Hi2w & _).
  assert (size w2i = length ws) as Hsize.
  { assert (w2i = dict (zip ws (seq 0 (length ws)))) as ->.
    { apply map_eq. intros w. apply option_eq. intros i.
      by rewrite Hw2i, enumerate_lookup. }
    rewrite dict_size by (by rewrite fst_zip by (rewrite length_seq; lia)).
    rewrite length_zip_with, length_seq. lia. }
  split_and!; [done| | | |].
  - intros w. split.
    + intros [i Hi%Hw2i]. apply list_elem_of_lookup_2, Hkeys in Hi as [v Hv].
      exists v. by apply (filter_words_lookup _ _ _ Hf).
    + intros (v & Hv). apply (filter_words_lookup _ _ _ Hf) in Hv.
      assert (w ∈ ws) as [i Hi]%list_elem_of_lookup_1 by (apply Hkeys; eauto).
      exists i. by apply Hw2i.
  - intros w i. by rewrite Hw2i, Hi2w.
  - intros i. rewrite Hsize. split.
    + intros [w Hw]%lookup_lt_is_Some. exists w. by apply Hw2i.
    + intros [w Hw%Hw2i]. by eapply lookup_lt_Some.
  - intros w1 w2 i1 i2 H1%Hw2i H2%Hw2i. by apply (sorted_lookup_le ws i1 i2).
Qed.

(** X9. The matrix that goes with the word tables has one row for each
    word, all of the length of the vector of the word of index 0; the row
    of a word is the vector the dictionary has for it when that has this
    length, and else the one element of the vector, repeated. *)
Theorem word_vecs_rows
    (output_path : string) d (letters file : string)
    (w2i : gmap string nat) (i2w : gmap nat string) (vecs : list (list F)) :
  (file, WordsPkl w2i i2w vecs) ∈ (pickle_word_vecs output_path d letters).1 →
  ∃ w0 v0,
    w2i !! w0 = Some 0 ∧ d !! w0 = Some v0
    ∧ length vecs = size w2i
    ∧ Forall (λ row, length row = length v0) vecs
    ∧ ∀ w i v, w2i !! w = Some i → d !! w = Some v →
        length v = length v0 ∧ vecs !! i = Some v
        ∨ length v ≠ length v0
          ∧ ∃ x, v = [x] ∧ vecs !! i = Some (replicate (length v0) x).
Proof.
  intros Hin.
  apply pickle_word_vecs_tables in Hin
    as (f & ws & first & v0 & Hf & Hnd & Hsorted & Hkeys & Hfirst & Hd & Hlen
        & Hw2i & Hi2w & Hvecs).
  assert (size w2i = length ws) as Hsize.
  { assert (w2i = dict (zip ws (seq 0 (length ws)))) as ->.
    { apply map_eq. intros w. apply option_eq. intros i.
      by rewrite Hw2i, enumerate_lookup. }
    rewrite dict_size by (by rewrite fst_zip by (rewrite length_seq; lia)).
    rewrite length_zip_with, length_seq. lia. }
  exists first, v0. split_and!; [by apply Hw2i|done|lia| |].
  - apply Forall_lookup. intros j row Hrow.
    assert (is_Some (ws !! j)) as [w Hw].
    { apply lookup_lt_is_Some. apply lookup_lt_Some in Hrow. lia. }
    destruct (Hvecs w j Hw) as (vec & _ & [[? Hj]|(_ & x & -> & Hj)]);
      rewrite Hj in Hrow; simplify_eq; [done|]. by rewrite length_replicate.
  - intros w i v Hi%Hw2i Hv.
    destruct (Hvecs w i Hi) as (vec & Hvec & Hrow).
    apply (filter_words_lookup _ _ _ Hf) in Hvec as [Hvec _]. by simplify_eq.
Qed.


(** X11. When a word that passes the filter has a vector whose length is
    neither 1 nor the length of the vector of the least word that passes,
    the run raises RuntimeError at the row of that word, and has saved no
    file. *)
Theorem pickle_word_vecs_ragged
    (output_path : string) d (letters : string) f (first w : string) (v0 v : list F) :
  filter_words d (remove_duplicate_chars letters) = Ok f →
  f !! first = Some v0 →
  (∀ w', is_Some (f !! w') → String.le first w') →
  f !! w = Some v →
  length v ≠ length v0 →
  length v ≠ 1 →
  pickle_word_vecs output_path d letters = ([], Err RuntimeError).
Proof.
  intros Hf Hfirst Hleast Hw Hlen Hone.
  assert (f ≠ ∅) as Hne by (intros ->; by rewrite lookup_empty in Hw).
  destruct (pickle_word_vecs_filtered output_path d letters f Hf Hne)
    as (first' & v0' & Hfirst' & _ & Hv0' & Hrun).
  destruct (sorted_words_keys f) as (Hnd & Hsorted & Hkeys).
  assert (first' = first) as ->.
  { apply (anti_symm String.le).
    - assert (first ∈ sorted_words (map_to_list f).*1)
        as [i Hi]%list_elem_of_lookup_1 by (apply Hkeys; eauto).
      apply (sorted_lookup_le _ 0 i _ _ Hsorted Hfirst' Hi). lia.
    - apply Hleast. eauto. }
  simplify_eq. rewrite Hrun.
  destruct (fill_word_tables _ _ _ _) as [t|e] eqn:Hfill.
  - apply fill_word_tables_Ok in Hfill as (_ & _ & _ & _ & _ & _ & Hvecs); [|done].
    assert (w ∈ sorted_words (map_to_list f).*1)
      as [j Hj]%list_elem_of_lookup_1 by (apply Hkeys; eauto).
    destruct (Hvecs w j Hj) as (vec & Hvec & [[? _]|(_ & x & -> & _)]);
      simplify_eq; done.
  - apply fill_word_tables_Err in Hfill as [-> _]; [done| |].
    + intros w' Hw'. by apply Hkeys.
    + cbn. by rewrite length_replicate.
Qed.


End pickle_word_vecs_more.

(** ** split and load_glove_model *)

Lemma split_loop_tokens (cur s tok : list ascii) :
  Forall (λ c, isspace c = false) cur →
  tok ∈ split_loop cur s →
  tok ≠ [] ∧ Forall (λ c, isspace c = false) tok.
Proof.
  revert cur. induction s as [|c s IH]; intros cur Hcur; cbn.
  - case_bool_decide; [by intros ?%elem_of_nil|].
    by intros ->%list_elem_of_singleton.
  - destruct (isspace c) eqn:Hc.
    + rewrite elem_of_app. intros [Htok|Htok].
      * case_bool_decide; [by apply elem_of_nil in Htok|].
        by apply list_elem_of_singleton in Htok as ->.
      * by apply (IH []).
    + apply IH. apply Forall_app. split; [done|]. by constructor.
Qed.

Lemma split_loop_nil (cur s : list ascii) :
  split_loop cur s = [] ↔ cur = [] ∧ Forall (λ c, isspace c = true) s.
Proof.
  revert cur. induction s as [|c s IH]; intros cur; cbn.
  - case_bool_decide; split; try done; try (by intros [? _]); by intros _.
  - destruct (isspace c) eqn:Hc.
    + case_bool_decide as Hcur.
      * cbn. rewrite IH, Forall_cons. naive_solver.
      * split; [done|]. by intros [? _].
    + rewrite IH, Forall_cons. split.
      * intros [Hnil _]. by destruct cur.
      * intros [_ [? _]]. congruence.
Qed.

Lemma split_tokens (line tok : string) :
  tok ∈ split line →
  tok ≠ "" ∧ ∀ c, c ∈ String.list_ascii_of_string tok → isspace c = false.
Proof.
  unfold split. intros (l & -> & Hl)%list_elem_of_fmap.
  apply split_loop_tokens in Hl as [Hne Hl]; [|constructor].
  rewrite String.list_ascii_of_string_of_list_ascii. split.
  - by destruct l.
  - by apply Forall_forall.
Qed.

Lemma split_nil (line : string) :
  split line = [] ↔ ∀ c, c ∈ String.list_ascii_of_string line → isspace c = true.
Proof.
  unfold split. rewrite <-Forall_forall.
  pose proof (split_loop_nil [] (String.list_ascii_of_string line)) as Hnil.
  split.
  - intros H%fmap_nil_inv. by apply Hnil.
  - intros H. destruct Hnil as [_ ->]; done.
Qed.

Section load_glove_model_facts.
Context {float : Float} {parse : FloatOfString}.
Implicit Types (file : list string) (model : gmap string (list F)).

Lemma floats_length (vals : list string) (xs : list F) :
  floats vals = Ok xs → length xs = length vals.
Proof.
  revert xs. induction vals as [|val vals IH]; intros xs Hxs; cbn in Hxs.
  - by simplify_eq.
  - destruct (float_of_string val) as [x|e]; [|done]. cbn in Hxs.
    destruct (floats vals) as [xs'|e]; [|done]. cbn in Hxs. simplify_eq.
    cbn. f_equal. by apply IH.
Qed.

Lemma load_glove_loop_app file1 file2 model :
  load_glove_loop (file1 ++ file2) model
  = load_glove_loop file1 model ≫= load_glove_loop file2.
Proof.
  revert model. induction file1 as [|line file1 IH]; intros model; [done|].
  cbn. destruct (index (split line) 0) as [word|e]; [|done]. cbn.
  destruct (floats _) as [embedding|e]; [|done]. cbn. apply IH.
Qed.

Lemma load_glove_loop_step line model model' :
  load_glove_loop [line] model = Ok model' ↔
  ∃ word embedding, entry line word embedding ∧ model' = <[word := embedding]> model.
Proof.
  unfold entry. cbn. unfold index.
  destruct (split line !! 0) as [word|]; cbn; [|naive_solver].
  destruct (floats _) as [embedding|e]; cbn; naive_solver.
Qed.

(** The dictionary after the lines of [file]: the last line of a word
    gives its vector. *)
Lemma load_glove_loop_lookup file model model' :
  load_glove_loop file model = Ok model' →
  (∀ line, line ∈ file → ∃ word embedding, entry line word embedding)
  ∧ ∀ word embedding, model' !! word = Some embedding ↔
      (∃ earlier line later, file = earlier ++ line :: later
         ∧ entry line word embedding
         ∧ ∀ line', line' ∈ later → split line' !! 0 ≠ Some word)
      ∨ (model !! word = Some embedding
         ∧ ∀ line, line ∈ file → split line !! 0 ≠ Some word).
Proof.
  revert model'. induction file as [|line file IH] using rev_ind; intros model' Hrun.
  { cbn in Hrun. simplify_eq. split; [by intros ? ?%elem_of_nil|].
    intros word embedding. split.
    - intros Hw. right. split; [done|]. by intros ? ?%elem_of_nil.
    - intros [(earlier & l & later & Hnil & _)|[? _]]; [|done]. by destruct earlier. }
  rewrite load_glove_loop_app in Hrun.
  destruct (load_glove_loop file model) as [model1|e]; [|done]. cbn [mbind result_bind] in Hrun.
  destruct (IH model1 eq_refl) as [Hlines Hlookup].
  apply load_glove_loop_step in Hrun as (w & v & Hentry & ->).
  split.
  { intros l [Hl|Hl%list_elem_of_singleton]%elem_of_app; [by apply Hlines|].
    subst. eauto. }
  intros word embedding.
  destruct (decide (word = w)) as [->|Hne].
  - rewrite lookup_insert_eq. split.
    + intros [= <-]. left. exists file, line, []. split_and!; [done..|].
      by intros ? ?%elem_of_nil.
    + intros [(earlier & l & later & Hfile & Hl & Hafter)|[_ Hnone]].
      * destruct later as [|l' later IHlater] using rev_ind.
        -- apply app_inj_tail in Hfile as [_ <-].
           destruct Hentry as [_ H1], Hl as [_ H2]. congruence.
        -- rewrite app_comm_cons, (assoc_L (++)) in Hfile.
           apply app_inj_tail in Hfile as [_ ->].
           destruct (Hafter l'); [set_solver|]. apply Hentry.
      * destruct (Hnone line); [set_solver|]. apply Hentry.
  - rewrite lookup_insert_ne by done. rewrite Hlookup. split.
    + intros [(earlier & l & later & -> & Hl & Hafter)|[Hm Hnone]].
      * left. exists earlier, l, (later ++ [line]).
        split_and!; [by rewrite <-(assoc_L (++))|done|].
        intros l' [?| ->%list_elem_of_singleton]%elem_of_app; [by apply Hafter|].
        destruct Hentry as [-> _]. congruence.
      * right. split; [done|].
        intros l' [?| ->%list_elem_of_singleton]%elem_of_app; [by apply Hnone|].
        destruct Hentry as [-> _]. congruence.
    + intros [(earlier & l & later & Hfile & Hl & Hafter)|[Hm Hnone]].
      * destruct later as [|l' later IHlater] using rev_ind.
        -- apply app_inj_tail in Hfile as [_ <-].
           destruct Hentry as [H1 _], Hl as [H2 _]. congruence.
        -- rewrite app_comm_cons, (assoc_L (++)) in Hfile.
           apply app_inj_tail in Hfile as [-> ->].
           left. exists earlier, l, later. split_and!; [done..|].
           intros l'' Hl''. apply Hafter. set_solver.
      * right. split; [done|]. intros l Hl. apply Hnone. set_solver.
Qed.

Lemma load_glove_loop_keys file model model' :
  load_glove_loop file model = Ok model' →
  (∀ w, is_Some (model !! w) → is_Some (model' !! w))
  ∧ ∀ line, line ∈ file → ∃ w, split line !! 0 = Some w ∧ is_Some (model' !! w).
Proof.
  revert model. induction file as [|line file IH]; intros model Hrun.
  { cbn in Hrun. simplify_eq. split; [done|]. by intros ? ?%elem_of_nil. }
  change (line :: file) with ([line] ++ file) in Hrun.
  rewrite load_glove_loop_app in Hrun.
  destruct (load_glove_loop [line] model) as [model1|e] eqn:Hline; [|done].
  cbn [mbind result_bind] in Hrun.
  apply load_glove_loop_step in Hline as (w & v & [Hw _] & ->).
  destruct (IH _ Hrun) as [Hkeep Hlines]. split.
  - intros w' Hw'. apply Hkeep. destruct (decide (w' = w)) as [->|Hne].
    + by rewrite lookup_insert_eq.
    + by rewrite lookup_insert_ne.
  - intros l [->|Hl]%elem_of_cons; [|by apply Hlines].
    exists w. split; [done|]. apply Hkeep. by rewrite lookup_insert_eq.
Qed.

Lemma load_glove_model_clean file model w :
  load_glove_model file = Ok model →
  is_Some (model !! w) →
  w ≠ "" ∧ ∀ c, c ∈ String.list_ascii_of_string w → isspace c = false.
Proof.
  intros [_ Hlookup]%load_glove_loop_lookup [v Hv].
  apply Hlookup in Hv as [(earlier & line & later & _ & [Hw _] & _)|[Hv _]];
    [|by rewrite lookup_empty in Hv].
  apply (split_tokens line). by eapply list_elem_of_lookup_2.
Qed.

Lemma load_glove_model_no_newline file model w :
  load_glove_model file = Ok model →
  is_Some (model !! w) →
  ∀ w', w ≠ w' +:+ newline.
Proof.
  intros Hrun Hw w' ->.
  destruct (load_glove_model_clean _ _ _ Hrun Hw) as [_ Hclean].
  assert (isspace "010"%char = false) as Hnl; [|done].
  apply Hclean. rewrite list_ascii_of_string_app. apply elem_of_app. right. left.
Qed.

Lemma load_glove_model_from_line file model w :
  load_glove_model file = Ok model →
  is_Some (model !! w) ↔ ∃ line, line ∈ file ∧ split line !! 0 = Some w.
Proof.
  intros Hrun. split.
  - intros [v Hv]. destruct (load_glove_loop_lookup _ _ _ Hrun) as [_ Hlookup].
    apply Hlookup in Hv as [(earlier & line & later & -> & [Hw _] & _)|[Hv _]];
      [|by rewrite lookup_empty in Hv].
    exists line. split; [|done]. apply elem_of_app. right. left.
  - intros (line & Hline & Hw).
    destruct (load_glove_loop_keys _ _ _ Hrun) as [_ Hlines].
    destruct (Hlines line Hline) as (w' & Hw' & Hkey). by simplify_eq.
Qed.

(** X13. The words of a dictionary that [load_glove_model] returns are
    not empty and hold no whitespace, so no newline either. *)
Theorem load_glove_model_words file model (w : string) :
  load_glove_model file = Ok model →
  is_Some (model !! w) →
  w ≠ ""
  ∧ (∀ c, c ∈ String.list_ascii_of_string w → isspace c = false)
  ∧ ∀ w', w ≠ w' +:+ newline.
Proof.
  intros Hrun Hw. destruct (load_glove_model_clean _ _ _ Hrun Hw) as [Hne Hclean].
  split_and!; [done..|]. by eapply load_glove_model_no_newline.
Qed.

(** X14. [load_glove_model] returns the dictionary of the lines of the
    file: every line gives a word, its first field, which is a key of the
    dictionary; the vector of a word is that of the last line of the word,
    with one number for each field of the line after the first. *)
Theorem load_glove_model_entries file model :
  load_glove_model file = Ok model →
  (∀ line, line ∈ file → ∃ w, split line !! 0 = Some w ∧ is_Some (model !! w))
  ∧ (∀ w v, model !! w = Some v ↔
       ∃ earlier line later, file = earlier ++ line :: later
         ∧ entry line w v
         ∧ ∀ line', line' ∈ later → split line' !! 0 ≠ Some w)
  ∧ (∀ w v, model !! w = Some v →
       ∃ line, line ∈ file ∧ split line !! 0 = Some w
         ∧ length (split line) = S (length v)).
Proof.
  intros Hrun.
  destruct (load_glove_loop_keys _ _ _ Hrun) as [_ Hlines].
  destruct (load_glove_loop_lookup _ _ _ Hrun) as [_ Hlookup].
  assert (∀ w v, model !! w = Some v ↔
            ∃ earlier line later, file = earlier ++ line :: later
              ∧ entry line w v
              ∧ ∀ line', line' ∈ later → split line' !! 0 ≠ Some w) as Hlast.
  { intros w v. rewrite Hlookup. split; [|by left].
    intros [?|[Hv _]]; [done|]. by rewrite lookup_empty in Hv. }
  split_and!; [done..|].
  intros w v (earlier & line & later & -> & [Hw Hv] & _)%Hlast.
  exists line. split_and!; [set_solver|done|].
  apply floats_length in Hv. rewrite length_drop in Hv.
  apply lookup_lt_Some in Hw. lia.
Qed.

(** X15. A line of the file with nothing but whitespace on it, an empty
    line among them, makes [load_glove_model] raise IndexError, when the
    lines before it were read. *)
Theorem load_glove_model_blank_line (earlier later : list string) (line : string) model :
  load_glove_model earlier = Ok model →
  (∀ c, c ∈ String.list_ascii_of_string line → isspace c = true) →
  load_glove_model (earlier ++ line :: later) = Err IndexError.
Proof.
  intros Hrun Hblank%split_nil. unfold load_glove_model in *.
  rewrite load_glove_loop_app, Hrun. cbn. by rewrite Hblank.
Qed.

End load_glove_model_facts.

(** ** The whole script *)

Section main_facts.
Context {re : Re} {float : Float} {parse : FloatOfString}.

Lemma passes_plain (letters w : string) :
  plain letters →
  (∀ w', w ≠ w' +:+ newline) →
  passes (remove_duplicate_chars letters) w ↔ composed_of letters w.
Proof.
  intros Hplain Hnl. unfold passes.
  rewrite re_match_plain by by apply plain_remove_duplicate_chars.
  assert (∀ b : bool, Ok b = Ok true ↔ b = true) as ->
    by (intros b; split; congruence).
  rewrite (match_class_plus_ext _
             (λ c, bool_decide (c ∈ String.list_ascii_of_string letters)))
    by (intros c; apply bool_decide_ext, remove_duplicate_chars_elem).
  rewrite (match_class_plus_words
             (λ c, c ∈ String.list_ascii_of_string letters) w).
  unfold composed_of. split; [|by left].
  intros [?|(w' & -> & _)]; [done|]. by destruct (Hnl w').
Qed.

(** X16. With letters that are not empty and hold none of \ ] ^ - the
    words file that [main] saves has for the keys of [word2idx] exactly the
    words of the glove file, the first fields of its lines, that are made
    of the letters. *)
Theorem main_word_table (glove_file : list string) (output_path letters file : string)
    (w2i : gmap string nat) (i2w : gmap nat string) (vecs : list (list F)) :
  plain letters →
  (file, WordsPkl w2i i2w vecs) ∈ (main glove_file output_path letters).1 →
  ∀ w, is_Some (w2i !! w)
       ↔ composed_of letters w
         ∧ ∃ line, line ∈ glove_file ∧ split line !! 0 = Some w.
Proof.
  intros Hplain Hin w. unfold main in Hin.
  destruct (load_glove_model glove_file) as [d|e] eqn:Hload;
    [|by apply elem_of_nil in Hin].
  cbn [lift io_bind] in Hin.
  assert ((file, WordsPkl w2i i2w vecs) ∈ (pickle_word_vecs output_path d letters).1)
    as Hsaved.
  { destruct (pickle_word_vecs output_path d letters) as [saved r].
    by rewrite app_nil_l in Hin. }
  apply pickle_word_vecs_tables in Hsaved
    as (f & ws & _ & _ & Hf & _ & _ & Hkeys & _ & _ & _ & Hw2i & _).
  assert (is_Some (w2i !! w) ↔ is_Some (f !! w)) as ->.
  { rewrite <-Hkeys, list_elem_of_lookup. unfold is_Some.
    by setoid_rewrite Hw2i. }
  rewrite <-(load_glove_model_from_line _ _ w Hload).
  split.
  - intros [v Hv]. apply (filter_words_lookup _ _ _ Hf) in Hv as [Hd Hpass].
    assert (is_Some (d !! w)) as Hkey by eauto.
    split; [|done]. apply passes_plain; [done| |done].
    by eapply load_glove_model_no_newline.
  - intros [Hw [v Hv]].
    exists v. apply (filter_words_lookup _ _ _ Hf). split; [done|].
    apply passes_plain; [done| |done].
    eapply load_glove_model_no_newline; eauto.
Qed.

End main_facts.

Lemma alphabet_plain :
  Forall (λ c, c ∉ metachars)
    (String.list_ascii_of_string (ascii_lowercase +:+ ascii_uppercase)).
Proof. apply (bool_decide_unpack _). vm_compute. exact I. Qed.

(** X17. When the extra characters of the configuration hold none of
    \ ] ^ - and the letters are not empty, the letters of the configuration,
    the extra characters and after them the alphabets that are switched on,
    are letters on which the filter keeps the words made of them. *)
Theorem config_letters_plain (chars : string) (lowercase uppercase : bool) :
  (∀ c, c ∈ String.list_ascii_of_string chars → c ∉ metachars) →
  config chars lowercase uppercase ≠ "" →
  plain (config chars lowercase uppercase)
  ∧ ∀ c, c ∈ String.list_ascii_of_string (config chars lowercase uppercase)
         ↔ c ∈ String.list_ascii_of_string chars
           ∨ (lowercase = true ∧ c ∈ String.list_ascii_of_string ascii_lowercase)
           ∨ (uppercase = true ∧ c ∈ String.list_ascii_of_string ascii_uppercase).
Proof.
  intros Hchars Hne.
  assert (∀ c, c ∈ String.list_ascii_of_string (config chars lowercase uppercase)
               ↔ c ∈ String.list_ascii_of_string chars
                 ∨ (lowercase = true
                    ∧ c ∈ String.list_ascii_of_string ascii_lowercase)
                 ∨ (uppercase = true
                    ∧ c ∈ String.list_ascii_of_string ascii_uppercase)) as Hmem.
  { intros c. unfold config. rewrite !list_ascii_of_string_app, !elem_of_app.
    destruct lowercase, uppercase; cbn [String.list_ascii_of_string];
      rewrite ?elem_of_nil; naive_solver. }
  split; [|done]. split; [done|].
  intros c [Hc|[[_ Hc]|[_ Hc]]]%Hmem; [by apply Hchars| |].
  - pose proof alphabet_plain as Hall. rewrite Forall_forall in Hall.
    apply Hall. rewrite list_ascii_of_string_app. apply elem_of_app. by left.
  - pose proof alphabet_plain as Hall. rewrite Forall_forall in Hall.
    apply Hall. rewrite list_ascii_of_string_app. apply elem_of_app. by right.
Qed.

(** ** The generation loop, further *)

Section generate_more.
Context {float : Float} {torch : Torch}.

Lemma string_app_empty_r (s : string) : s +:+ "" = s.
Proof.
  induction s as [|c s IH]; [done|].
  change (String c s +:+ "") with (String c (s +:+ "")). by rewrite IH.
Qed.

Lemma generate_loop_output (idx2char : gmap nat string) fuel test_model hid inp out s :
  generate_loop idx2char fuel test_model hid inp out = Some (Ok s) →
  (∃ i, idx2char !! i = Some "END")
  ∧ ∃ cs : list string,
      s = out +:+ foldr String.app "" cs
      ∧ length cs < fuel
      ∧ Forall (λ c, c ≠ "END" ∧ ∃ i, idx2char !! i = Some c) cs.
Proof.
  revert test_model hid inp out.
  induction fuel as [|fuel IH]; intros test_model hid inp out Hrun; [done|].
  cbn [generate_loop] in Hrun.
  destruct (forward test_model hid inp false) as [[[pout hid'] model']|e]; [|done].
  cbn [result_then] in Hrun. unfold getitem in Hrun.
  destruct (idx2char !! data_argmax pout) as [c|] eqn:Hc; [|done].
  cbn [result_then] in Hrun. case_bool_decide as Hend.
  - simplify_eq. split; [eauto|]. exists []. cbn.
    split_and!; [by rewrite string_app_empty_r|lia|constructor].
  - apply IH in Hrun as [HEND (cs & -> & Hlen & Hcs)]. split; [done|].
    exists (c :: cs). cbn. split_and!; [apply string_app_assoc|lia|].
    constructor; eauto.
Qed.

(** X18. A generation that returns a string returns the character of the
    first step followed by those of the steps of the loop, fewer than the
    loop was allowed; all are entries of [idx2char], and none after the
    first is END.  It returns only with tables that have START and END. *)
Theorem generate_output (char2idx : gmap string nat) (idx2char : gmap nat string)
    fuel test_model hid (s : string) :
  generate char2idx idx2char fuel test_model hid = Some (Ok s) →
  is_Some (char2idx !! "START")
  ∧ (∃ i, idx2char !! i = Some "END")
  ∧ ∃ (c0 : string) (cs : list string),
      s = c0 +:+ foldr String.app "" cs
      ∧ (∃ i, idx2char !! i = Some c0)
      ∧ length cs < fuel
      ∧ Forall (λ c, c ≠ "END" ∧ ∃ i, idx2char !! i = Some c) cs.
Proof.
  unfold generate, getitem. intros Hrun.
  destruct (char2idx !! "START") as [start|]; [|done]. cbn [result_then] in Hrun.
  destruct (forward test_model hid _ true) as [[[pout hid'] model']|e]; [|done].
  cbn [result_then] in Hrun.
  destruct (idx2char !! data_argmax pout) as [c0|] eqn:Hc0; [|done].
  cbn [result_then] in Hrun.
  apply generate_loop_output in Hrun as [HEND (cs & -> & Hlen & Hcs)].
  split_and!; [done..|]. exists c0, cs. split_and!; eauto.
Qed.

(** X19. The loop has no bound of its own: on a model that, from the
    state the loop starts in, never raises and never gives END the highest
    score, the loop is still running after any number of steps. *)
Theorem generate_loop_runs_on (idx2char : gmap nat string)
    (reached : CharDecoderHeadRNN → Hidden → Prop) test_model hid :
  reached test_model hid →
  (∀ m h inp, reached m h →
     ∃ pout h' m' c,
       forward m h inp false = Ok ((pout, h'), m')
       ∧ idx2char !! data_argmax pout = Some c
       ∧ c ≠ "END"
       ∧ reached m' h') →
  ∀ fuel inp out, generate_loop idx2char fuel test_model hid inp out = None.
Proof.
  intros Hstart Hstep fuel. revert test_model hid Hstart.
  induction fuel as [|fuel IH]; intros m h Hreached inp out; [done|].
  cbn [generate_loop].
  destruct (Hstep m h inp Hreached) as (pout & h' & m' & c & -> & Hc & Hend & Hnext).
  cbn [result_then]. unfold getitem. rewrite Hc. cbn [result_then].
  rewrite bool_decide_eq_false_2 by done. by apply IH.
Qed.

End generate_more.

(** ** The further properties, on the stubs *)

Lemma plain_ab : plain "ab".
Proof.
  split; [done|]. apply Forall_forall.
  apply (bool_decide_unpack _). vm_compute. exact I.
Defined.

Lemma filter_words_subdict_idempotent_witness :
  let out : gmap string (list Z) := dict [("ab", [1; 2]); ("ba", [3; 4]); ("b", [7; 8])]%Z in
  filter_words (re := no_other_patterns) small_dict "ab" = Ok out
  ∧ out ⊆ small_dict
  ∧ filter_words (re := no_other_patterns) out "ab" = Ok out.
Proof.
  intros out.
  assert (filter_words (re := no_other_patterns) small_dict "ab" = Ok out) as Hrun
    by (vm_compute; reflexivity).
  split; [exact Hrun|].
  apply (filter_words_subdict_idempotent (re := no_other_patterns) small_dict "ab" out Hrun).
Defined.

Lemma small_dict_not_empty : small_dict ≠ ∅.
Proof.
  intros H. apply (f_equal (λ m : gmap string (list Z), m !! "b")) in H.
  vm_compute in H. discriminate H.
Defined.

Lemma filter_words_empty_inputs_witness :
  small_dict ≠ ∅
  ∧ filter_words (re := no_other_patterns) (∅ : gmap string (list Z)) "" = Ok ∅
  ∧ filter_words (re := no_other_patterns) small_dict "" = Err re_error.
Proof.
  split; [exact small_dict_not_empty|].
  pose proof (filter_words_empty_inputs (re := no_other_patterns) small_dict "")
    as [Hempty Herr].
  split; [exact Hempty|exact (Herr small_dict_not_empty)].
Defined.

Lemma filter_words_plain_letters_witness :
  plain "ab"
  ∧ ∃ out, filter_words (re := no_other_patterns) small_dict "ab" = Ok out
      ∧ ∀ w v, out !! w = Some v
          ↔ small_dict !! w = Some v
            ∧ (composed_of "ab" w ∨ ∃ w', w = w' +:+ newline ∧ composed_of "ab" w').
Proof.
  split; [exact plain_ab|].
  apply (filter_words_plain_letters (re := no_other_patterns) small_dict "ab" plain_ab).
Defined.

Lemma filter_words_negated_letters_witness :
  plain "ab"
  ∧ ∃ out, filter_words (re := no_other_patterns) small_dict "^ab" = Ok out
      ∧ ∀ w v, out !! w = Some v
          ↔ small_dict !! w = Some v
            ∧ (avoids "ab" w ∨ ∃ w', w = w' +:+ newline ∧ avoids "ab" w').
Proof.
  split; [exact plain_ab|].
  apply (filter_words_negated_letters (re := no_other_patterns) small_dict "ab" plain_ab).
Defined.

Lemma filter_words_cleaned_letters_witness :
  plain "ab"
  ∧ filter_words (re := no_other_patterns) small_dict (remove_duplicate_chars "ab")
    = filter_words (re := no_other_patterns) small_dict "ab".
Proof.
  split; [exact plain_ab|].
  apply (filter_words_cleaned_letters (re := no_other_patterns) small_dict "ab" plain_ab).
Defined.

Lemma small_words_file :
  ("out_words.pkl",
   WordsPkl (dict [("ab", 0); ("b", 1); ("ba", 2)])
            (dict [(0, "ab"); (1, "b"); (2, "ba")])
            ([[1; 2]; [7; 8]; [3; 4]]%Z : list (list (@F Z_float))))
  ∈ (pickle_word_vecs (re := no_other_patterns) (float := Z_float)
       "out" small_dict "ab").1.
Proof. vm_compute. left. Defined.

Lemma word_tables_number_sorted_words_witness :
  let w2i : gmap string nat := dict [("ab", 0); ("b", 1); ("ba", 2)] in
  let i2w : gmap nat string := dict [(0, "ab"); (1, "b"); (2, "ba")] in
  (∀ w i, i2w !! i = Some w ↔ w2i !! w = Some i)
  ∧ (∀ i, i < size w2i ↔ ∃ w, w2i !! w = Some i)
  ∧ (∀ w1 w2 i1 i2, w2i !! w1 = Some i1 → w2i !! w2 = Some i2 →
       i1 ≤ i2 → String.le w1 w2).
Proof.
  intros w2i i2w.
  apply (word_tables_number_sorted_words (re := no_other_patterns) (float := Z_float)
           "out" small_dict "ab" "out_words.pkl" w2i i2w _ small_words_file).
Defined.

Lemma word_vecs_rows_witness :
  let w2i : gmap string nat := dict [("ab", 0); ("b", 1); ("ba", 2)] in
  let vecs : list (list Z) := [[1; 2]; [7; 8]; [3; 4]]%Z in
  ∃ w0 v0,
    w2i !! w0 = Some 0 ∧ small_dict !! w0 = Some v0
    ∧ length vecs = size w2i
    ∧ Forall (λ row, length row = length v0) vecs
    ∧ ∀ w i v, w2i !! w = Some i → small_dict !! w = Some v →
        length v = length v0 ∧ vecs !! i = Some v
        ∨ length v ≠ length v0
          ∧ ∃ x, v = [x] ∧ vecs !! i = Some (replicate (length v0) x).
Proof.
  intros w2i vecs.
  apply (word_vecs_rows (re := no_other_patterns) (float := Z_float)
           "out" small_dict "ab" "out_words.pkl" w2i _ vecs small_words_file).
Defined.



Lemma ragged_dict_least : ∀ w', is_Some (ragged_dict !! w') → String.le "a" w'.
Proof.
  assert (map_Forall (λ w _, String.le "a" w) ragged_dict) as Hall.
  { apply (bool_decide_unpack _). vm_compute. exact I. }
  intros w' [v Hv]. by apply (Hall w' v).
Defined.

Lemma pickle_word_vecs_ragged_witness :
  filter_words (re := no_other_patterns) ragged_dict (remove_duplicate_chars "ab")
  = Ok ragged_dict
  ∧ ragged_dict !! "a" = Some [1; 2]%Z
  ∧ ragged_dict !! "b" = Some [3; 4; 5]%Z
  ∧ pickle_word_vecs (re := no_other_patterns) (float := Z_float)
      "out" ragged_dict "ab"
    = ([], Err RuntimeError).
Proof.
  assert (filter_words (re := no_other_patterns) ragged_dict
            (remove_duplicate_chars "ab") = Ok ragged_dict) as Hf
    by (vm_compute; reflexivity).
  assert (ragged_dict !! "a" = Some [1; 2]%Z) as Ha by (vm_compute; reflexivity).
  assert (ragged_dict !! "b" = Some [3; 4; 5]%Z) as Hb by (vm_compute; reflexivity).
  split_and!; [exact Hf|exact Ha|exact Hb|].
  apply (pickle_word_vecs_ragged (re := no_other_patterns) (float := Z_float)
           "out" ragged_dict "ab" ragged_dict "a" "b" [1; 2]%Z [3; 4; 5]%Z
           Hf Ha ragged_dict_least Hb); cbn; lia.
Defined.

Lemma small_glove_loaded :
  load_glove_model (float := Z_float) (parse := stub_float_of_string) small_glove
  = Ok (dict [("ab", [5; 6]); ("b-c", [3; 4]); ("Ba", [7; 8])]%Z).
Proof. vm_compute. reflexivity. Defined.

Lemma load_glove_model_words_witness :
  is_Some ((dict [("ab", [5; 6]); ("b-c", [3; 4]); ("Ba", [7; 8])]%Z
            : gmap string (list Z)) !! "b-c")
  ∧ "b-c" ≠ ""
  ∧ (∀ c, c ∈ String.list_ascii_of_string "b-c" → isspace c = false)
  ∧ ∀ w', "b-c" ≠ w' +:+ newline.
Proof.
  assert (is_Some ((dict [("ab", [5; 6]); ("b-c", [3; 4]); ("Ba", [7; 8])]%Z
                    : gmap string (list Z)) !! "b-c")) as Hkey
    by (vm_compute; eauto).
  split; [exact Hkey|].
  apply (load_glove_model_words (float := Z_float) (parse := stub_float_of_string)
           small_glove _ "b-c" small_glove_loaded Hkey).
Defined.

Lemma load_glove_model_entries_witness :
  let model : gmap string (list Z) :=
    dict [("ab", [5; 6]); ("b-c", [3; 4]); ("Ba", [7; 8])]%Z in
  (∀ line, line ∈ small_glove → ∃ w, split line !! 0 = Some w ∧ is_Some (model !! w))
  ∧ (∀ w v, model !! w = Some v ↔
       ∃ earlier line later, small_glove = earlier ++ line :: later
         ∧ entry (float := Z_float) (parse := stub_float_of_string) line w v
         ∧ ∀ line', line' ∈ later → split line' !! 0 ≠ Some w)
  ∧ (∀ w v, model !! w = Some v →
       ∃ line, line ∈ small_glove ∧ split line !! 0 = Some w
         ∧ length (split line) = S (length v)).
Proof.
  intros model.
  apply (load_glove_model_entries (float := Z_float) (parse := stub_float_of_string)
           small_glove model small_glove_loaded).
Defined.

Lemma load_glove_model_blank_line_witness :
  load_glove_model (float := Z_float) (parse := stub_float_of_string)
    ["ab 1 2" +:+ newline]
  = Ok (dict [("ab", [1; 2])]%Z)
  ∧ (∀ c, c ∈ String.list_ascii_of_string (" " +:+ newline) → isspace c = true)
  ∧ load_glove_model (float := Z_float) (parse := stub_float_of_string)
      (["ab 1 2" +:+ newline] ++ (" " +:+ newline) :: ["b 3 4"])
    = Err IndexError.
Proof.
  assert (load_glove_model (float := Z_float) (parse := stub_float_of_string)
            ["ab 1 2" +:+ newline] = Ok (dict [("ab", [1; 2])]%Z)) as Hload
    by (vm_compute; reflexivity).
  assert (∀ c, c ∈ String.list_ascii_of_string (" " +:+ newline) → isspace c = true)
    as Hblank.
  { apply Forall_forall. apply (bool_decide_unpack _). vm_compute. exact I. }
  split_and!; [exact Hload|exact Hblank|].
  apply (load_glove_model_blank_line (float := Z_float) (parse := stub_float_of_string)
           ["ab 1 2" +:+ newline] ["b 3 4"] (" " +:+ newline) _ Hload Hblank).
Defined.

Lemma main_word_table_witness :
  let w2i : gmap string nat := dict [("ab", 0)] in
  let i2w : gmap nat string := dict [(0, "ab")] in
  plain "ab"
  ∧ ("out_words.pkl", WordsPkl w2i i2w ([[5; 6]]%Z : list (list (@F Z_float))))
    ∈ (main (re := no_other_patterns) (float := Z_float)
         (parse := stub_float_of_string) small_glove "out" "ab").1
  ∧ ∀ w, is_Some (w2i !! w)
         ↔ composed_of "ab" w
           ∧ ∃ line, line ∈ small_glove ∧ split line !! 0 = Some w.
Proof.
  intros w2i i2w.
  assert (("out_words.pkl", WordsPkl w2i i2w ([[5; 6]]%Z : list (list (@F Z_float))))
          ∈ (main (re := no_other_patterns) (float := Z_float)
               (parse := stub_float_of_string) small_glove "out" "ab").1) as Hsaved.
  { vm_compute. left. }
  split_and!; [exact plain_ab|exact Hsaved|].
  apply (main_word_table (re := no_other_patterns) (float := Z_float)
           (parse := stub_float_of_string) small_glove "out" "ab" "out_words.pkl"
           w2i i2w _ plain_ab Hsaved).
Defined.

Lemma config_letters_plain_witness :
  (∀ c, c ∈ String.list_ascii_of_string "'" → c ∉ metachars)
  ∧ config "'" true false ≠ ""
  ∧ plain (config "'" true false).
Proof.
  assert (∀ c, c ∈ String.list_ascii_of_string "'" → c ∉ metachars) as Hchars.
  { intros c Hc. cbn in Hc. apply list_elem_of_singleton in Hc as ->.
    unfold metachars. set_solver. }
  assert (config "'" true false ≠ "") as Hne by (vm_compute; discriminate).
  split_and!; [exact Hchars|exact Hne|].
  apply (proj1 (config_letters_plain "'" true false Hchars Hne)).
Defined.

Lemma generate_output_witness :
  generate (torch := stub_torch) scenario_char2idx scenario_idx2char 4
    (scenario_model "GRU" three_a) zero_embedding
  = Some (Ok "aaa")
  ∧ is_Some (scenario_char2idx !! "START")
  ∧ ∃ i, scenario_idx2char !! i = Some "END".
Proof.
  assert (generate (torch := stub_torch) scenario_char2idx scenario_idx2char 4
            (scenario_model "GRU" three_a) zero_embedding = Some (Ok "aaa")) as Hrun
    by reflexivity.
  pose proof (generate_output (torch := stub_torch) scenario_char2idx
                scenario_idx2char 4 (scenario_model "GRU" three_a) zero_embedding
                "aaa" Hrun) as (Hstart & Hend & _).
  split_and!; [exact Hrun|exact Hstart|exact Hend].
Defined.

Lemma generate_loop_runs_on_witness :
  let reached := λ (m : @CharDecoderHeadRNN Z_float stub_torch) (h : @Hidden Z_float),
                   m = scenario_model "GRU" always_a in
  reached (scenario_model "GRU" always_a) zero_embedding
  ∧ ∀ fuel inp out,
      generate_loop (torch := stub_torch) scenario_idx2char fuel
        (scenario_model "GRU" always_a) zero_embedding inp out = None.
Proof.
  intros reached.
  assert (reached (scenario_model "GRU" always_a) zero_embedding) as Hstart
    by reflexivity.
  split; [exact Hstart|].
  apply (generate_loop_runs_on (torch := stub_torch) scenario_idx2char reached
           (scenario_model "GRU" always_a) zero_embedding Hstart).
  intros m h inp ->.
  exists 2, (stub_advance h), (scenario_model "GRU" always_a), "a".
  split_and!; [reflexivity|reflexivity|discriminate|reflexivity].
Defined.
